(** * SyncedCron: a shallow embedding of [synced-cron-server.js]

    The development follows the source file top to bottom: JavaScript
    values and the logger, the Mongo collection holding the job history,
    the state of the [SyncedCron] singleton, the startup hook that creates
    the indexes, the registry operations ([scheduleEntry], [start],
    [pause]), the execution wrapper ([_entryWrapper]) and the two timer
    functions adapted from Later.js ([_laterSetInterval],
    [_laterSetTimeout]).

    Dates are their epoch value in milliseconds (a [Z]); the clock is an
    oracle stored in the world, read by [Date.now()] and [new Date()].
    Asynchronous functions run to their end without interleaving: an
    [await] is a call. The collection is an in-memory Mongo collection:
    its operations fail when the data says so (a duplicate key under the
    unique index, an index that cannot be built), not for want of a
    connection. The world records the calls made to [log]; what the logger
    built by [createLogger] does with a call is [createLogger] below. *)

From stdpp Require Import base numbers option list strings gmap.

Local Open Scope Z_scope.

(** ** JavaScript values *)

Inductive JsVal : Type :=
| VUndefined
| VNull
| VBool (b : bool)
| VNum (n : Z)
| VStr (s : string)
| VObj (props : Props)
with Props : Type :=
| PNil
| PCons (k : string) (v : JsVal) (rest : Props).

(** ToBoolean. *)
Definition truthy (v : JsVal) : bool :=
  match v with
  | VUndefined | VNull => false
  | VBool b => b
  | VNum n => negb (n =? 0)
  | VStr s => negb (String.eqb s "")
  | VObj _ => true
  end.

Fixpoint assoc (k : string) (ps : Props) : JsVal :=
  match ps with
  | PNil => VUndefined
  | PCons k' v ps' => if String.eqb k k' then v else assoc k ps'
  end.

(** [v.k] for the property names the source reads ([stack], [code],
    [message]); primitives carry none of them. *)
Definition getProp (v : JsVal) (k : string) : JsVal :=
  match v with
  | VObj ps => assoc k ps
  | _ => VUndefined
  end.

(** [e && e.stack ? e.stack : e] *)
Definition errDetail (e : JsVal) : JsVal :=
  if truthy e && truthy (getProp e "stack") then getProp e "stack" else e.

(** The [TypeError] raised by a method call on [undefined]. *)
Definition TypeError (what : string) : JsVal :=
  VObj (PCons "name" (VStr "TypeError")
       (PCons "message" (VStr what)
       (PCons "stack" (VStr ("TypeError: " +:+ what)) PNil))).

(** ** Log calls

    A message is a template literal: literal text and interpolated
    values. *)

Inductive Level := info | error | warn | debug.

Inductive Frag :=
| Txt (s : string)
| Val (v : JsVal)
| Quoted (s : string)     (* the string between double quotes *)
| Num (n : Z)
| When (d : option Z).   (* a Date, or Later's NEVER *)

Record LogCall := { level : Level; message : list Frag }.

Record Options := {
  log_opt : bool;               (* options.log, [false] iff [=== false] *)
  logger : bool;                (* options.logger is a function *)
  collectionName : string;
  utc : bool;
  collectionTTL : option Z;     (* seconds; [None] when unset or null *)
}.

Definition defaultOptions : Options :=
  {| log_opt := true; logger := false; collectionName := "cronHistory";
     utc := false; collectionTTL := Some 172800 |}.

(** What the function built by [createLogger] does with one call. The flag
    [options.log] is read when the logger is created, [options.logger] at
    every call. *)
Inductive Emitted :=
| Silent
| ToLogger (lv : Level) (msg : list Frag) (tag : string)
| ToConsole (lv : Level) (text : list Frag).

Definition createLogger (prefix : string) (atCreation : Options)
    (atCall : Options) (c : LogCall) : Emitted :=
  if negb (log_opt atCreation) then Silent
  else if logger atCall then ToLogger (level c) (message c) prefix
  else ToConsole (level c) (Txt prefix :: Txt ": " :: message c).

(** ** The job history collection *)

Module Doc.
Record t := {
  _id : nat;
  intendedAt : Z;
  name : string;
  startedAt : Z;
  finishedAt : option Z;
  result : option JsVal;
  error : option JsVal;
}.
End Doc.

(** The [$set] modifiers the source sends. *)
Record Modifier := {
  set_finishedAt : option Z;
  set_result : option JsVal;
  set_error : option JsVal;
}.

Definition orElse {A} (new old : option A) : option A :=
  match new with Some x => Some x | None => old end.

(** What the driver writes: Meteor opens its Mongo connection with
    [ignoreUndefined], so the serialiser leaves out every field whose value
    is [undefined], at any depth. *)
Fixpoint stored (v : JsVal) : JsVal :=
  match v with
  | VObj ps => VObj (storedProps ps)
  | _ => v
  end
with storedProps (ps : Props) : Props :=
  match ps with
  | PNil => PNil
  | PCons k VUndefined rest => storedProps rest
  | PCons k v rest => PCons k (stored v) (storedProps rest)
  end.

(** A field of the modifier as it reaches the collection:
    [$set: {result: undefined}] sets nothing. *)
Definition sent (v : option JsVal) : option JsVal :=
  match v with
  | None | Some VUndefined => None
  | Some x => Some (stored x)
  end.

Definition applySet (m : Modifier) (d : Doc.t) : Doc.t :=
  {| Doc._id := Doc._id d;
     Doc.intendedAt := Doc.intendedAt d;
     Doc.name := Doc.name d;
     Doc.startedAt := Doc.startedAt d;
     Doc.finishedAt := orElse (set_finishedAt m) (Doc.finishedAt d);
     Doc.result := orElse (sent (set_result m)) (Doc.result d);
     Doc.error := orElse (sent (set_error m)) (Doc.error d) |}.

Record Store := {
  docs : list Doc.t;
  nextId : nat;                 (* supply of fresh [_id]s *)
  uniqueIndex : bool;           (* {intendedAt: 1, name: 1}, unique *)
  ttlIndex : option Z;          (* {startedAt: 1}, expireAfterSeconds *)
}.

Definition emptyStore : Store :=
  {| docs := []; nextId := 0%nat; uniqueIndex := false; ttlIndex := None |}.

Definition hasKey (at_ : Z) (nm : string) (d : Doc.t) : bool :=
  (Doc.intendedAt d =? at_) && String.eqb (Doc.name d) nm.

(** The key is held by a document of the collection. *)
Definition held (at_ : Z) (nm : string) (s : Store) : bool :=
  existsb (hasKey at_ nm) (docs s).

(** An insert with this key violates the unique index. *)
Definition taken (at_ : Z) (nm : string) (s : Store) : bool :=
  uniqueIndex s && held at_ nm s.

Definition keyCount (at_ : Z) (nm : string) (s : Store) : nat :=
  length (filter (λ d, hasKey at_ nm d = true) (docs s)).

Fixpoint dupKeys (ds : list Doc.t) : bool :=
  match ds with
  | [] => false
  | d :: ds' => existsb (hasKey (Doc.intendedAt d) (Doc.name d)) ds' || dupKeys ds'
  end.

Definition MongoError (code : Z) (msg : string) : JsVal :=
  VObj (PCons "code" (VNum code) (PCons "message" (VStr msg) PNil)).

Definition DuplicateKey : JsVal := MongoError 11000 "E11000 duplicate key error".
Definition IndexOptionsConflict : JsVal := MongoError 85 "index exists with different options".

Inductive Res (A : Type) := Ok (a : A) | Throw (e : JsVal).
Arguments Ok {A} a.
Arguments Throw {A} e.

(** [insertAsync]: rejected with code 11000 when the unique index is in
    place and the key is taken; otherwise the document gets a fresh [_id],
    which is returned. *)
Definition insertAsync (at_ : Z) (nm : string) (started : Z) (s : Store)
    : Res nat * Store :=
  if taken at_ nm s then (Throw DuplicateKey, s)
  else
    let d := {| Doc._id := nextId s; Doc.intendedAt := at_; Doc.name := nm;
                Doc.startedAt := started; Doc.finishedAt := None;
                Doc.result := None; Doc.error := None |} in
    (Ok (nextId s),
     {| docs := docs s ++ [d]; nextId := S (nextId s);
        uniqueIndex := uniqueIndex s; ttlIndex := ttlIndex s |}).

(** [updateAsync({_id: id}, {$set: m})] changes the first match only. *)
Fixpoint updateFirst (id : nat) (m : Modifier) (ds : list Doc.t) : list Doc.t :=
  match ds with
  | [] => []
  | d :: ds' =>
      if Nat.eqb (Doc._id d) id then applySet m d :: ds'
      else d :: updateFirst id m ds'
  end.

Definition updateAsync (id : nat) (m : Modifier) (s : Store) : Store :=
  {| docs := updateFirst id m (docs s); nextId := nextId s;
     uniqueIndex := uniqueIndex s; ttlIndex := ttlIndex s |}.

Inductive IndexSpec :=
| UniqueKey                         (* {intendedAt: 1, name: 1}, {unique: true} *)
| ExpireAfter (seconds : Z).        (* {startedAt: 1}, {expireAfterSeconds} *)

(** [createIndexAsync]: building a unique index fails on a collection that
    already holds two documents with one key; an index that exists with
    other options is a conflict. *)
Definition createIndexAsync (ix : IndexSpec) (s : Store) : Res unit * Store :=
  match ix with
  | UniqueKey =>
      if uniqueIndex s then (Ok (), s)
      else if dupKeys (docs s) then (Throw DuplicateKey, s)
      else (Ok (), {| docs := docs s; nextId := nextId s;
                      uniqueIndex := true; ttlIndex := ttlIndex s |})
  | ExpireAfter n =>
      match ttlIndex s with
      | Some m => if m =? n then (Ok (), s) else (Throw IndexOptionsConflict, s)
      | None => (Ok (), {| docs := docs s; nextId := nextId s;
                           uniqueIndex := uniqueIndex s; ttlIndex := Some n |})
      end
  end.

(** ** Jobs, entries and timers *)

(** The compiled schedule [Later.schedule(sched)]: [s k start] is
    [s.next(k, start)], at most [k] occurrences after [start] in ascending
    order. Later returns its constant NEVER when there is none; indexing
    NEVER gives [undefined], as indexing past the end of an array does, so
    both are the empty list here. *)
Definition Schedule := nat → Z → list Z.

Inductive JobResult := Returns (v : JsVal) | Throws (e : JsVal).

Record Entry := {
  name : string;
  schedule : Schedule;
  job : Z → string → JobResult;
  persist : bool;
  _timer : option nat;          (* handle returned by [_laterSetInterval] *)
}.

(** What a pending [setTimeout] will run. *)
Inductive TimerCallback :=
| Fire (intendedAt : Z)         (* async () => { await fn(intendedAt) } *)
| Reevaluate.                   (* scheduleTimeout itself *)

(** The closure state of one [_laterSetInterval] call: the wrapped entry,
    the schedule, the flag [done] and the pending timeout of the current
    [_laterSetTimeout] (delay and callback). *)
Record Interval := {
  fn : Entry;
  sched : Schedule;
  done : bool;
  t : option (Z * TimerCallback);
}.

(** ** The world: the [SyncedCron] singleton and its surroundings *)

Record World := {
  clock : nat → Z;              (* successive readings of the clock *)
  ticks : nat;
  options : Options;
  laterUTC : bool;
  _collection : Store;
  indexCalls : list IndexSpec;  (* calls made to [createIndexAsync] *)
  logged : list LogCall;        (* calls made to [log] *)
  jobCalls : list (Z * string); (* calls made to job functions *)
  _entries : gmap string Entry;
  running : bool;
  timers : list Interval;
}.

Definition setTicks (n : nat) (w : World) : World :=
  {| clock := clock w; ticks := n; options := options w; laterUTC := laterUTC w;
     _collection := _collection w; indexCalls := indexCalls w;
     logged := logged w; jobCalls := jobCalls w;
     _entries := _entries w; running := running w; timers := timers w |}.

Definition setLaterUTC (b : bool) (w : World) : World :=
  {| clock := clock w; ticks := ticks w; options := options w; laterUTC := b;
     _collection := _collection w; indexCalls := indexCalls w;
     logged := logged w; jobCalls := jobCalls w;
     _entries := _entries w; running := running w; timers := timers w |}.

Definition setCollection (s : Store) (w : World) : World :=
  {| clock := clock w; ticks := ticks w; options := options w; laterUTC := laterUTC w;
     _collection := s; indexCalls := indexCalls w;
     logged := logged w; jobCalls := jobCalls w;
     _entries := _entries w; running := running w; timers := timers w |}.

Definition setIndexCalls (l : list IndexSpec) (w : World) : World :=
  {| clock := clock w; ticks := ticks w; options := options w; laterUTC := laterUTC w;
     _collection := _collection w; indexCalls := l;
     logged := logged w; jobCalls := jobCalls w;
     _entries := _entries w; running := running w; timers := timers w |}.

Definition setLogged (l : list LogCall) (w : World) : World :=
  {| clock := clock w; ticks := ticks w; options := options w; laterUTC := laterUTC w;
     _collection := _collection w; indexCalls := indexCalls w;
     logged := l; jobCalls := jobCalls w;
     _entries := _entries w; running := running w; timers := timers w |}.

Definition setJobCalls (l : list (Z * string)) (w : World) : World :=
  {| clock := clock w; ticks := ticks w; options := options w; laterUTC := laterUTC w;
     _collection := _collection w; indexCalls := indexCalls w;
     logged := logged w; jobCalls := l;
     _entries := _entries w; running := running w; timers := timers w |}.

Definition setEntries (m : gmap string Entry) (w : World) : World :=
  {| clock := clock w; ticks := ticks w; options := options w; laterUTC := laterUTC w;
     _collection := _collection w; indexCalls := indexCalls w;
     logged := logged w; jobCalls := jobCalls w;
     _entries := m; running := running w; timers := timers w |}.

Definition setRunning (b : bool) (w : World) : World :=
  {| clock := clock w; ticks := ticks w; options := options w; laterUTC := laterUTC w;
     _collection := _collection w; indexCalls := indexCalls w;
     logged := logged w; jobCalls := jobCalls w;
     _entries := _entries w; running := b; timers := timers w |}.

Definition setTimers (l : list Interval) (w : World) : World :=
  {| clock := clock w; ticks := ticks w; options := options w; laterUTC := laterUTC w;
     _collection := _collection w; indexCalls := indexCalls w;
     logged := logged w; jobCalls := jobCalls w;
     _entries := _entries w; running := running w; timers := l |}.

(** ** Effects: state and exceptions *)

Definition M (A : Type) : Type := World → Res A * World.

Definition ret {A} (a : A) : M A := λ w, (Ok a, w).

Definition throw {A} (e : JsVal) : M A := λ w, (Throw e, w).

Definition bind {A B} (m : M A) (k : A → M B) : M B :=
  λ w, match m w with
       | (Ok a, w') => k a w'
       | (Throw e, w') => (Throw e, w')
       end.

(** [try { m } catch (e) { h e }]: the effects of [m] up to the throw stay. *)
Definition try_catch {A} (m : M A) (h : JsVal → M A) : M A :=
  λ w, match m w with
       | (Ok a, w') => (Ok a, w')
       | (Throw e, w') => h e w'
       end.

Notation "x <- m ;; k" := (bind m (λ x, k))
  (at level 100, m at next level, right associativity).
Notation "m ;;; k" := (bind m (λ _, k))
  (at level 100, right associativity).

Definition get {A} (f : World → A) : M A := λ w, (Ok (f w), w).
Definition modify (f : World → World) : M unit := λ w, (Ok (), f w).

Definition liftRes {A} (r : Res A) : M A := λ w, (r, w).

Fixpoint forEach {A} (f : A → M unit) (l : list A) : M unit :=
  match l with
  | [] => ret ()
  | x :: l' => f x ;;; forEach f l'
  end.

(** [Date.now()], [new Date()] *)
Definition Date_now : M Z :=
  λ w, (Ok (clock w (ticks w)), setTicks (S (ticks w)) w).

Definition log (lv : Level) (msg : list Frag) : M unit :=
  modify (λ w, setLogged (logged w ++ [{| level := lv; message := msg |}]) w).

(** What the calls made so far put on the console or hand to the custom
    logger, for a logger created under [atCreation]. *)
Definition emitted (atCreation : Options) (w : World) : list Emitted :=
  map (createLogger "SyncedCron" atCreation (options w)) (logged w).

Definition insertM (at_ : Z) (nm : string) (started : Z) : M nat :=
  λ w, let '(r, s) := insertAsync at_ nm started (_collection w) in
       (r, setCollection s w).

Definition updateM (id : nat) (m : Modifier) : M unit :=
  modify (λ w, setCollection (updateAsync id m (_collection w)) w).

Definition createIndexM (ix : IndexSpec) : M unit :=
  λ w, let '(r, s) := createIndexAsync ix (_collection w) in
       (r, setCollection s (setIndexCalls (indexCalls w ++ [ix]) w)).

(** ** [Meteor.startup]: time mode and indexes

    The hook starts the index creation without waiting for it; here it
    runs to its end inside the hook. *)

Definition minTTL : Z := 300.

Definition startup : M unit :=
  opts <- get options ;;
  modify (setLaterUTC (utc opts)) ;;;
  try_catch
    (createIndexM UniqueKey ;;;
     match collectionTTL opts with
     | Some ttl =>
         if negb (ttl =? 0) then
           if minTTL <? ttl then createIndexM (ExpireAfter ttl)
           else log warn [Txt "Not going to use a TTL that is shorter than: "; Num minTTL]
         else ret ()
     | None => ret ()
     end)
    (λ err, log error [Txt "Error creating indexes: "; Val (getProp err "message")]).

(** ** [_laterSetTimeout] *)

Definition maxDelay : Z := 2147483647.

Definition getTimeOfUndefined : JsVal :=
  TypeError "Cannot read properties of undefined (reading 'getTime')".

(** The first half of the inner [scheduleTimeout]: the occurrence to wait
    for and its delay. [None] is the silent return on an exhausted
    schedule. *)
Definition pickOccurrence (now : Z) (next : list Z) : Res (option (Z * Z)) :=
  match next !! 0%nat with
  | None => Ok None                              (* if (!next[0]) return; *)
  | Some next0 =>
      let diff := next0 - now in
      let intendedAt := next0 in
      if diff <? 1000 then
        match next !! 1%nat with
        | Some next1 => Ok (Some (next1 - now, next1))
        | None => Throw getTimeOfUndefined       (* next[1].getTime() *)
        end
      else Ok (Some (diff, intendedAt))
  end.

(** The second half: which timeout is set. *)
Definition arm (diff intendedAt : Z) : Z * TimerCallback :=
  if diff <? 2147483647 then (diff, Fire intendedAt)
  else (2147483647, Reevaluate).

Definition scheduleTimeout (now : Z) (next : list Z) : Res (option (Z * TimerCallback)) :=
  match pickOccurrence now next with
  | Throw e => Throw e
  | Ok None => Ok None
  | Ok (Some (diff, intendedAt)) => Ok (Some (arm diff intendedAt))
  end.

(** [_laterSetTimeout(fn, sched)] runs [scheduleTimeout] once and returns
    the handle; the handle is represented by the timeout it holds. The
    function [fn] that a [Fire] calls is the caller's: for an interval, its
    own [scheduleTimeout] (see [timeoutFires]). *)
Definition _laterSetTimeout (sched : Schedule) : M (option (Z * TimerCallback)) :=
  now <- Date_now ;;
  liftRes (scheduleTimeout now (sched 2%nat now)).

(** ** [_entryWrapper] *)

(** [setMilliseconds(0)] on a copy of the date. *)
Definition setMilliseconds0 (d : Z) : Z := d - d mod 1000.

Definition isDuplicateKey (e : JsVal) : bool :=
  match getProp e "code" with
  | VNum c => c =? 11000
  | _ => false
  end.

Definition runJob (entry : Entry) (intendedAt : Z) : M JsVal :=
  λ w, let w' := setJobCalls (jobCalls w ++ [(intendedAt, name entry)]) w in
       match job entry intendedAt (name entry) with
       | Returns v => (Ok v, w')
       | Throws e => (Throw e, w')
       end.

Definition idOf (jobHistory : option nat) : M nat :=
  match jobHistory with
  | Some id => ret id
  | None => throw (TypeError "Cannot read properties of undefined (reading '_id')")
  end.

(** The claim: [None] is the early [return] on a duplicate key, [Some h]
    carries [jobHistory._id] when the entry persists. *)
Definition claim (entry : Entry) (intendedAt : Z) : M (option (option nat)) :=
  if persist entry then
    startedAt <- Date_now ;;
    try_catch
      (id <- insertM intendedAt (name entry) startedAt ;; ret (Some (Some id)))
      (λ e, if isDuplicateKey e then
              log info [Txt "Not running "; Quoted (name entry); Txt " again."] ;;;
              ret None
            else throw e)
  else ret (Some None).

Definition _entryWrapper (entry : Entry) (intendedAt : Z) : M JsVal :=
  let intendedAt := setMilliseconds0 intendedAt in
  claimed <- claim entry intendedAt ;;
  match claimed with
  | None => ret VUndefined
  | Some jobHistory =>
      try_catch
        (log info [Txt "Starting "; Quoted (name entry); Txt "."] ;;;
         output <- runJob entry intendedAt ;;
         log info [Txt "Finished "; Quoted (name entry); Txt "."] ;;;
         if persist entry then
           id <- idOf jobHistory ;;
           finishedAt <- Date_now ;;
           updateM id {| set_finishedAt := Some finishedAt;
                         set_result := Some output; set_error := None |}
         else ret ())
        (λ e,
         log error [Txt "Exception "; Quoted (name entry); Txt " "; Val (errDetail e)] ;;;
         if persist entry then
           id <- idOf jobHistory ;;
           finishedAt <- Date_now ;;
           updateM id {| set_finishedAt := Some finishedAt;
                         set_result := None; set_error := Some (errDetail e) |}
         else ret ()) ;;;
      ret VUndefined
  end.

(** ** [_laterSetInterval] *)

Definition setPending (id : nat) (p : option (Z * TimerCallback)) : M unit :=
  modify (λ w, setTimers
    (alter (λ iv, {| fn := fn iv; sched := sched iv; done := done iv; t := p |})
           id (timers w)) w).

(** The world once the pending timeout of interval [id] has elapsed. *)
Definition fired (id : nat) (w : World) : World := (setPending id None w).2.

(** [t = SyncedCron._laterSetTimeout(scheduleTimeout, sched)] *)
Definition rearm (id : nat) (s : Schedule) : M unit :=
  p <- _laterSetTimeout s ;;
  setPending id p.

Definition _laterSetInterval (wrapped : Entry) (s : Schedule) : M nat :=
  p <- _laterSetTimeout s ;;
  id <- get (λ w, length (timers w)) ;;
  modify (λ w, setTimers
    (timers w ++ [{| fn := wrapped; sched := s; done := false; t := p |}]) w) ;;;
  ret id.

(** [clear()] of the handle: [done = true; t.clear()]. *)
Definition clear (id : nat) : M unit :=
  modify (λ w, setTimers
    (alter (λ iv, {| fn := fn iv; sched := sched iv; done := true; t := None |})
           id (timers w)) w).

(** The pending timeout of interval [id] elapses and its callback runs to
    the end. A [Fire] runs the interval's [scheduleTimeout(intendedAt)]:
    the wrapped job, whose exception is logged, then a new
    [_laterSetTimeout]. A [Reevaluate] runs [_laterSetTimeout]'s own
    [scheduleTimeout] again. *)
Definition timeoutFires (id : nat) : M unit :=
  ts <- get timers ;;
  match ts !! id with
  | None => ret ()
  | Some iv =>
      match t iv with
      | None => ret ()
      | Some (_, cb) =>
          modify (fired id) ;;;
          match cb with
          | Reevaluate => rearm id (sched iv)
          | Fire intendedAt =>
              if done iv then ret ()
              else
                try_catch
                  (_entryWrapper (fn iv) intendedAt ;;; ret ())
                  (λ e, log error [Txt "Exception running scheduled job ";
                                   Val (errDetail e)]) ;;;
                rearm id (sched iv)
          end
      end
  end.

(** ** The registry *)

Definition withTimer (id : nat) (e : Entry) : Entry :=
  {| name := name e; schedule := schedule e; job := job e;
     persist := persist e; _timer := Some id |}.

(** [scheduleEntry(entry)], for the entry object stored under [k]. *)
Definition scheduleEntry (k : string) (entry : Entry) : M unit :=
  let s := schedule entry in
  id <- _laterSetInterval entry s ;;
  modify (λ w, setEntries (<[k := withTimer id entry]> (_entries w)) w) ;;;
  now <- Date_now ;;
  log info [Txt "Scheduled "; Quoted (name entry); Txt " next run @ ";
            When (head (s 1%nat now))].

(** [start()], once the process has started ([Meteor.startup] then runs
    its callback at once). *)
Definition start : M unit :=
  es <- get _entries ;;
  forEach (λ '(k, entry), scheduleEntry k entry) (map_to_list es) ;;;
  modify (setRunning true).

Definition clearOfUndefined : JsVal :=
  TypeError "Cannot read properties of undefined (reading 'clear')".

Definition pause : M unit :=
  r <- get running ;;
  if r then
    es <- get _entries ;;
    forEach (λ '(_, entry),
               match _timer entry with
               | Some id => clear id
               | None => throw clearOfUndefined
               end) (map_to_list es) ;;;
    modify (setRunning false)
  else ret ().

(** ** The rest of the registry *)

Definition setOptions (o : Options) (w : World) : World :=
  {| clock := clock w; ticks := ticks w; options := o; laterUTC := laterUTC w;
     _collection := _collection w; indexCalls := indexCalls w;
     logged := logged w; jobCalls := jobCalls w;
     _entries := _entries w; running := running w; timers := timers w |}.

(** The argument of [config]: the options it names. *)
Record OptionsPatch := {
  p_log : option bool;
  p_logger : option bool;
  p_collectionName : option string;
  p_utc : option bool;
  p_collectionTTL : option (option Z);
}.

(** [Object.assign({}, this.options, opts)] *)
Definition assignOptions (o : Options) (opts : OptionsPatch) : Options :=
  {| log_opt := default (log_opt o) (p_log opts);
     logger := default (logger o) (p_logger opts);
     collectionName := default (collectionName o) (p_collectionName opts);
     utc := default (utc o) (p_utc opts);
     collectionTTL := default (collectionTTL o) (p_collectionTTL opts) |}.

Definition config (opts : OptionsPatch) : M unit :=
  modify (λ w, setOptions (assignOptions (options w) opts) w).

(** [_entries] is an object literal: reading [_entries[k]] finds the
    entry stored under [k] or, failing that, what [Object.prototype]
    gives for [k]. *)
Definition inheritedNames : list string :=
  ["constructor"; "hasOwnProperty"; "isPrototypeOf"; "propertyIsEnumerable";
   "toLocaleString"; "toString"; "valueOf"; "__proto__";
   "__defineGetter__"; "__defineSetter__"; "__lookupGetter__"; "__lookupSetter__"].

Definition inherited (k : string) : bool :=
  existsb (String.eqb k) inheritedNames.

(** The [name] of the inherited value, as a template literal prints it:
    the functions carry their own name, the constructor is [Object], and
    [__proto__] reads the prototype object, which has none. *)
Definition inheritedName (k : string) : string :=
  if String.eqb k "constructor" then "Object"
  else if String.eqb k "__proto__" then "undefined"
  else k.

Inductive Slot :=
| Own (entry : Entry)
| Inherited (k : string)
| Missing.

Definition getEntry (k : string) (es : gmap string Entry) : Slot :=
  match es !! k with
  | Some entry => Own entry
  | None => if inherited k then Inherited k else Missing
  end.

(** The object handed to [add]: any value as [name] and [persist], a
    function or something else as [schedule] and [job], and the [_timer]
    the object may carry from an earlier registration. *)
Record RawEntry := {
  raw_name : JsVal;
  raw_schedule : option Schedule;
  raw_job : option (Z → string → JobResult);
  raw_persist : JsVal;
  raw_timer : option nat;
}.

(** The [Match.Error] of a failed [check]; its message, which also names
    the type that was found, is left out. *)
Definition MatchError (expected : string) : JsVal :=
  VObj (PCons "errorType" (VStr "Match.Error")
       (PCons "expected" (VStr expected) PNil)).

Definition checkString (v : JsVal) : M string :=
  match v with
  | VStr s => ret s
  | _ => throw (MatchError "string")
  end.

Definition checkFunction {A} (f : option A) : M A :=
  match f with
  | Some g => ret g
  | None => throw (MatchError "function")
  end.

(** [check(entry.persist, Match.Optional(Boolean))], then the default. *)
Definition checkPersist (v : JsVal) : M bool :=
  match v with
  | VUndefined => ret true
  | VBool b => ret b
  | _ => throw (MatchError "boolean")
  end.

Definition add (entry : RawEntry) : M unit :=
  nm <- checkString (raw_name entry) ;;
  sch <- checkFunction (raw_schedule entry) ;;
  jb <- checkFunction (raw_job entry) ;;
  ps <- checkPersist (raw_persist entry) ;;
  let entry := {| name := nm; schedule := sch; job := jb; persist := ps;
                  _timer := raw_timer entry |} in
  es <- get _entries ;;
  match getEntry nm es with
  | Missing =>
      modify (λ w, setEntries (<[nm := entry]> (_entries w)) w) ;;;
      r <- get running ;;
      if r then scheduleEntry nm entry else ret ()
  | _ => ret ()
  end.

Inductive NextDate :=
| NoSuchJob                     (* undefined *)
| Never                         (* Later's NEVER *)
| At (d : Z).

Definition scheduleOfUndefined : JsVal :=
  TypeError "entry.schedule is not a function".

Definition nextScheduledAtDate (jobName : string) : M NextDate :=
  es <- get _entries ;;
  match getEntry jobName es with
  | Own entry =>
      now <- Date_now ;;
      ret (match head (schedule entry 1%nat now) with
           | Some d => At d
           | None => Never
           end)
  | Inherited _ => throw scheduleOfUndefined
  | Missing => ret NoSuchJob
  end.

Definition remove (jobName : string) : M unit :=
  es <- get _entries ;;
  match getEntry jobName es with
  | Own entry =>
      match _timer entry with
      | Some id => clear id
      | None => ret ()
      end ;;;
      modify (λ w, setEntries (delete jobName (_entries w)) w) ;;;
      log info [Txt "Removed "; Quoted (name entry)]
  | Inherited k =>
      (* no [_timer] on the inherited value, no own property to delete *)
      log info [Txt "Removed "; Quoted (inheritedName k)]
  | Missing => ret ()
  end.

Definition stop : M unit :=
  es <- get _entries ;;
  forEach remove (map_to_list es).*1 ;;;
  modify (setRunning false).

(** [removeAsync({})] *)
Definition removeAll (s : Store) : Store :=
  {| docs := []; nextId := nextId s;
     uniqueIndex := uniqueIndex s; ttlIndex := ttlIndex s |}.

Definition _reset : M unit :=
  modify (setEntries ∅) ;;;
  modify (λ w, setCollection (removeAll (_collection w)) w) ;;;
  modify (setRunning false).

(** A sequence of calls of wrapped functions against the collection. *)
Fixpoint runAll (calls : list (Entry * Z)) : M unit :=
  match calls with
  | [] => ret ()
  | (entry, d) :: calls' => _entryWrapper entry d ;;; runAll calls'
  end.

(** The typed entry as the object a caller would pass. *)
Definition toRaw (e : Entry) : RawEntry :=
  {| raw_name := VStr (name e); raw_schedule := Some (schedule e);
     raw_job := Some (job e); raw_persist := VBool (persist e);
     raw_timer := _timer e |}.

(** ** Schedules used as test inputs *)

(** [Later.parse.recur().on(d).fullDate()]: the single occurrence [d]. *)
Definition oneOff (d : Z) : Schedule :=
  λ k start, if start <=? d then take k [d] else [].

(** An occurrence at every multiple of [period] milliseconds. *)
Definition everyMs (period : Z) : Schedule :=
  λ k start, map (λ i, (start / period + 1 + Z.of_nat i) * period) (seq 0 k).

Definition TestEntry : Entry :=
  {| name := "Test Job"; schedule := everyMs 60000;
     job := λ _ _, Returns (VStr "ran"); persist := true; _timer := None |}.

Definition gotcha : JsVal :=
  VObj (PCons "message" (VStr "Haha, gotcha!")
       (PCons "stack" (VStr "Error: Haha, gotcha!") PNil)).

Definition FailingEntry : Entry :=
  {| name := "Test Job"; schedule := everyMs 60000;
     job := λ _ _, Throws gotcha; persist := true; _timer := None |}.

(** A job that does [throw undefined], and a job without a [return]. *)
Definition ThrowsUndefined : Entry :=
  {| name := "Test Job"; schedule := everyMs 60000;
     job := λ _ _, Throws VUndefined; persist := true; _timer := None |}.

Definition ReturnsNothing : Entry :=
  {| name := "Test Job"; schedule := everyMs 60000;
     job := λ _ _, Returns VUndefined; persist := true; _timer := None |}.

Definition world0 (es : gmap string Entry) : World :=
  {| clock := λ n, 1000001 + Z.of_nat n; ticks := 0; options := defaultOptions;
     laterUTC := false; _collection := emptyStore; indexCalls := [];
     logged := []; jobCalls := [];
     _entries := es; running := false; timers := [] |}.

(** The same world with a clock that has reached the first occurrence of
    [everyMs 60000] at its fifth reading. *)
Definition world1 (es : gmap string Entry) : World :=
  {| clock := λ n, if (n <? 4)%nat then 1000001 + Z.of_nat n
                   else 1020000 + Z.of_nat n;
     ticks := 0; options := defaultOptions;
     laterUTC := false; _collection := emptyStore; indexCalls := [];
     logged := []; jobCalls := [];
     _entries := es; running := false; timers := [] |}.

(** ** Vocabulary of the statements *)

(** A run record is running (nothing set) or finished; a finished one
    has [finishedAt] and at most one of [result] and [error] (neither,
    when the value or the error detail was [undefined]). *)
Definition shapeOk (d : Doc.t) : bool :=
  match Doc.finishedAt d, Doc.result d, Doc.error d with
  | None, None, None => true
  | Some _, Some _, None => true
  | Some _, None, Some _ => true
  | Some _, None, None => true
  | _, _, _ => false
  end.

(** Invariant of the collection: every [_id] was handed out by the supply,
    and every record has one of these shapes. *)
Definition ledgerOk (s : Store) : bool :=
  forallb (λ d, Nat.ltb (Doc._id d) (nextId s) && shapeOk d) (docs s).

(** The modifier sent when the job has ended. *)
Definition completion (o : JobResult) (finishedAt : Z) : Modifier :=
  match o with
  | Returns v => {| set_finishedAt := Some finishedAt;
                    set_result := Some v; set_error := None |}
  | Throws e => {| set_finishedAt := Some finishedAt;
                   set_result := None; set_error := Some (errDetail e) |}
  end.

Definition startingCall (entry : Entry) : LogCall :=
  {| level := info; message := [Txt "Starting "; Quoted (name entry); Txt "."] |}.

Definition finishedCall (entry : Entry) : LogCall :=
  {| level := info; message := [Txt "Finished "; Quoted (name entry); Txt "."] |}.

Definition exceptionCall (entry : Entry) (e : JsVal) : LogCall :=
  {| level := error;
     message := [Txt "Exception "; Quoted (name entry); Txt " "; Val (errDetail e)] |}.

Definition notRunningCall (entry : Entry) : LogCall :=
  {| level := info;
     message := [Txt "Not running "; Quoted (name entry); Txt " again."] |}.

Definition ttlWarning : LogCall :=
  {| level := warn;
     message := [Txt "Not going to use a TTL that is shorter than: "; Num minTTL] |}.

(** The calls a run makes to [log], by the outcome of the job. *)
Definition runCalls (entry : Entry) (o : JobResult) : list LogCall :=
  startingCall entry ::
  match o with
  | Returns _ => [finishedCall entry]
  | Throws e => [exceptionCall entry e]
  end.

(** Every job call on record went through a claim that is still in the
    collection, and no occurrence was run twice. *)
Definition admissionOk (w : World) : Prop :=
  uniqueIndex (_collection w) = true ∧
  NoDup (jobCalls w) ∧
  ∀ at_ nm, (at_, nm) ∈ jobCalls w → held at_ nm (_collection w) = true.

(** The key of the occurrence a call is for. *)
Definition occurrence (c : Entry * Z) : Z * string :=
  (setMilliseconds0 c.2, name c.1).

(** An interval after [clear()]. *)
Definition cancelled (iv : Interval) : Interval :=
  {| fn := fn iv; sched := sched iv; done := true; t := None |}.

(** The timer handles the entries of the registry hold. *)
Definition handles (es : gmap string Entry) : list nat :=
  omap (λ ke, _timer ke.2) (map_to_list es).

(** The object passes the four [check]s of [add]. *)
Definition validRaw (r : RawEntry) : bool :=
  match raw_name r, raw_schedule r, raw_job r, raw_persist r with
  | VStr _, Some _, Some _, (VUndefined | VBool _) => true
  | _, _, _, _ => false
  end.

(** The entry [add] stores for an object that passes the checks. *)
Definition registered (r : RawEntry) (nm : string) (sch : Schedule)
    (jb : Z → string → JobResult) : Entry :=
  {| name := nm; schedule := sch; job := jb;
     persist := match raw_persist r with VBool b => b | _ => true end;
     _timer := raw_timer r |}.

(** A schedule on which the scheduling step never raises. *)
Definition schedulable (s : Schedule) : Prop :=
  ∀ now, ∃ p, scheduleTimeout now (s 2%nat now) = Ok p.

(** Unfolding of the effects in the wrapper. *)
Ltac run_monad :=
  unfold _entryWrapper, claim, idOf, runJob, updateM, insertM, log, modify,
    Date_now, bind, try_catch, ret, throw; simpl.

(** * The timer step *)

Section TimerStep.

Implicit Types (now diff intendedAt : Z) (next : list Z).

Lemma pickOccurrence_exhausted now : pickOccurrence now [] = Ok None.
Proof. reflexivity. Qed.

Lemma pickOccurrence_first now n0 rest :
  1000 ≤ n0 - now →
  pickOccurrence now (n0 :: rest) = Ok (Some (n0 - now, n0)).
Proof.
  intros Hd. unfold pickOccurrence. simpl.
  destruct (Z.ltb_spec (n0 - now) 1000); [lia | reflexivity].
Qed.

Lemma pickOccurrence_second now n0 n1 rest :
  n0 - now < 1000 →
  pickOccurrence now (n0 :: n1 :: rest) = Ok (Some (n1 - now, n1)).
Proof.
  intros Hd. unfold pickOccurrence. simpl.
  destruct (Z.ltb_spec (n0 - now) 1000); [reflexivity | lia].
Qed.

Lemma pickOccurrence_missing_second now n0 :
  n0 - now < 1000 →
  pickOccurrence now [n0] = Throw getTimeOfUndefined.
Proof.
  intros Hd. unfold pickOccurrence. simpl.
  destruct (Z.ltb_spec (n0 - now) 1000); [reflexivity | lia].
Qed.

Lemma arm_fire diff intendedAt :
  diff < maxDelay → arm diff intendedAt = (diff, Fire intendedAt).
Proof.
  intros Hd. unfold arm, maxDelay in *.
  destruct (Z.ltb_spec diff 2147483647); [reflexivity | lia].
Qed.

Lemma arm_wake diff intendedAt :
  maxDelay ≤ diff → arm diff intendedAt = (maxDelay, Reevaluate).
Proof.
  intros Hd. unfold arm, maxDelay in *.
  destruct (Z.ltb_spec diff 2147483647); [lia | reflexivity].
Qed.

Lemma arm_fire_inv diff intendedAt d ia :
  arm diff intendedAt = (d, Fire ia) → diff < maxDelay ∧ d = diff ∧ ia = intendedAt.
Proof.
  unfold arm, maxDelay.
  destruct (Z.ltb_spec diff 2147483647); intros [= <- <-]. auto.
Qed.

End TimerStep.

Lemma scheduleTimeout_picked now next diff intendedAt :
  pickOccurrence now next = Ok (Some (diff, intendedAt)) →
  scheduleTimeout now next = Ok (Some (arm diff intendedAt)).
Proof. intros H. unfold scheduleTimeout. by rewrite H. Qed.

Lemma scheduleTimeout_missing_second now n0 :
  n0 - now < 1000 → scheduleTimeout now [n0] = Throw getTimeOfUndefined.
Proof.
  intros H. unfold scheduleTimeout.
  by rewrite pickOccurrence_missing_second.
Qed.

(** The scheduling step, by the shape of the occurrence query's result. *)
Lemma scheduleTimeout_cases (now : Z) (next : list Z) :
  scheduleTimeout now next =
    match next with
    | [] => Ok None
    | n0 :: rest =>
        if 1000 <=? n0 - now then
          Ok (Some (if n0 - now <? maxDelay then (n0 - now, Fire n0)
                    else (maxDelay, Reevaluate)))
        else
          match rest with
          | n1 :: _ =>
              Ok (Some (if n1 - now <? maxDelay then (n1 - now, Fire n1)
                        else (maxDelay, Reevaluate)))
          | [] => Throw getTimeOfUndefined
          end
    end.
Proof.
  destruct next as [|n0 rest]; [reflexivity|].
  unfold scheduleTimeout, pickOccurrence, arm, maxDelay. simpl.
  destruct (Z.leb_spec 1000 (n0 - now)), (Z.ltb_spec (n0 - now) 1000);
    try lia; [reflexivity|].
  by destruct rest.
Qed.

(** * The timer chain *)

Section TimerChain.

Implicit Types (w : World) (id : nat) (iv : Interval) (s : Schedule).

(** A new [_laterSetTimeout] touches the clock and the timer table only. *)
Lemma rearm_frame id s w :
  jobCalls (rearm id s w).2 = jobCalls w ∧
  _collection (rearm id s w).2 = _collection w ∧
  logged (rearm id s w).2 = logged w ∧
  _entries (rearm id s w).2 = _entries w ∧
  running (rearm id s w).2 = running w.
Proof.
  unfold rearm, _laterSetTimeout, bind, Date_now, liftRes, setPending, modify.
  simpl. destruct (scheduleTimeout _ _); simpl; auto.
Qed.

(** Its outcome is the outcome of the scheduling step at the current
    reading of the clock. *)
Lemma rearm_outcome id s w :
  (rearm id s w).1 =
    match scheduleTimeout (clock w (ticks w)) (s 2%nat (clock w (ticks w))) with
    | Ok _ => Ok ()
    | Throw e => Throw e
    end.
Proof.
  unfold rearm, _laterSetTimeout, bind, Date_now, liftRes, setPending, modify.
  simpl. by destruct (scheduleTimeout _ _).
Qed.

Lemma rearm_pending id s w iv p :
  timers w !! id = Some iv →
  scheduleTimeout (clock w (ticks w)) (s 2%nat (clock w (ticks w))) = Ok p →
  timers (rearm id s w).2 !! id =
    Some {| fn := fn iv; sched := sched iv; done := done iv; t := p |}.
Proof.
  intros Hiv Hp.
  unfold rearm, _laterSetTimeout, bind, Date_now, liftRes, setPending, modify.
  simpl. rewrite Hp. simpl.
  by rewrite list_lookup_alter_eq, Hiv.
Qed.

Lemma fired_lookup id w iv :
  timers w !! id = Some iv →
  timers (fired id w) !! id =
    Some {| fn := fn iv; sched := sched iv; done := done iv; t := None |}.
Proof.
  intros Hiv. unfold fired, setPending, modify. simpl.
  by rewrite list_lookup_alter_eq, Hiv.
Qed.

Lemma timeoutFires_reevaluate id w iv d :
  timers w !! id = Some iv →
  t iv = Some (d, Reevaluate) →
  timeoutFires id w = rearm id (sched iv) (fired id w).
Proof.
  intros Hiv Ht. unfold timeoutFires, bind, get. simpl.
  by rewrite Hiv, Ht.
Qed.

Lemma timeoutFires_fire id w iv d intendedAt :
  timers w !! id = Some iv →
  t iv = Some (d, Fire intendedAt) →
  done iv = false →
  timeoutFires id w =
    (try_catch
       (_entryWrapper (fn iv) intendedAt ;;; ret ())
       (λ e, log error [Txt "Exception running scheduled job "; Val (errDetail e)]) ;;;
     rearm id (sched iv)) (fired id w).
Proof.
  intros Hiv Ht Hd. unfold timeoutFires, bind at 1, get. simpl.
  rewrite Hiv, Ht. unfold bind at 1. simpl. by rewrite Hd.
Qed.

End TimerChain.

(** * Claims on the timer *)

(** C2 (scenario of the test "Single time schedules do not break"). The
    schedule is the one-off date computed as 1000 ms after a clock reading
    of 1000000; [_laterSetTimeout] reads the clock one millisecond later.
    The occurrence query returns that single date, 999 ms away, and no
    second occurrence: the scheduling step raises the TypeError of
    [next[1].getTime()], and so does [start()] for a registered entry with
    this schedule, which leaves the scheduler not running. *)
Theorem single_imminent_occurrence_raises :
  let sched1 := oneOff 1001000 in
  let oneShot :=
    {| name := "Once"; schedule := sched1; job := λ _ _, Returns (VStr "ran");
       persist := true; _timer := None |} in
  let w := world0 {[ "Once" := oneShot ]} in
  sched1 2%nat 1000001 = [1001000] ∧
  scheduleTimeout 1000001 (sched1 2%nat 1000001) = Throw getTimeOfUndefined ∧
  (_laterSetTimeout sched1 w).1 = Throw getTimeOfUndefined ∧
  (start w).1 = Throw getTimeOfUndefined ∧
  running (start w).2 = false.
Proof. vm_compute. repeat split; reflexivity. Qed.

(** C4, as stated, fails: the first occurrence is 500 ms away and the
    second one 3000000000 ms away; the timeout that is set is the wake-up
    at the ceiling, not a timeout on the second occurrence's delay with the
    callback. *)
Lemma second_occurrence_beyond_ceiling :
  500 - 0 < 1000 ∧
  scheduleTimeout 0 [500; 3000000000] = Ok (Some (2147483647, Reevaluate)) ∧
  scheduleTimeout 0 [500; 3000000000] ≠ Ok (Some (3000000000 - 0, Fire 3000000000)).
Proof. split; [lia|]. split; [reflexivity | discriminate]. Qed.

(** C4, amended. When the first of the two queried occurrences is less
    than 1000 ms away, it is discarded and the second occurrence and its
    delay are used: if that delay is below 2147483647 ms the timeout is set
    on it, and its callback hands the second occurrence to the wrapped
    function; otherwise the wake-up at the ceiling is set. *)
Theorem minimum_fire_delay_rule (now n0 n1 : Z) (rest : list Z) :
  n0 - now < 1000 →
  pickOccurrence now (n0 :: n1 :: rest) = Ok (Some (n1 - now, n1)) ∧
  scheduleTimeout now (n0 :: n1 :: rest) =
    Ok (Some (if n1 - now <? maxDelay then (n1 - now, Fire n1)
              else (maxDelay, Reevaluate))) ∧
  ∀ (w : World) (id : nat) (iv : Interval),
    timers w !! id = Some iv →
    t iv = Some (n1 - now, Fire n1) →
    done iv = false →
    timeoutFires id w =
      (try_catch
         (_entryWrapper (fn iv) n1 ;;; ret ())
         (λ e, log error [Txt "Exception running scheduled job "; Val (errDetail e)]) ;;;
       rearm id (sched iv)) (fired id w).
Proof.
  intros Hd. split; [by apply pickOccurrence_second|]. split.
  - rewrite (scheduleTimeout_picked _ _ _ _ (pickOccurrence_second now n0 n1 rest Hd)).
    reflexivity.
  - intros w id iv Hiv Ht Hdone. by eapply timeoutFires_fire.
Qed.

Lemma minimum_fire_delay_rule_witness :
  1000500 - 1000000 < 1000 ∧
  scheduleTimeout 1000000 [1000500; 1060500] = Ok (Some (60500, Fire 1060500)).
Proof.
  split; [lia|].
  exact (proj1 (proj2 (minimum_fire_delay_rule 1000000 1000500 1060500 [] ltac:(lia)))).
Defined.

(** C5. Let [diff] be the delay computed by the first half of the
    scheduling step. If [diff] exceeds 2147483647 ms, the timeout that is
    set has delay 2147483647 and only runs the scheduling step again: when
    it elapses no job is called, the collection and the log are untouched,
    and the outcome is that of a fresh scheduling step. A timeout that
    fires the callback is set only when [diff] is within the ceiling (in
    fact strictly below it), on [diff] itself and for the picked
    occurrence. *)
Theorem maximum_delay_overflow_rule (now : Z) (next : list Z) (diff intendedAt : Z) :
  pickOccurrence now next = Ok (Some (diff, intendedAt)) →
  (maxDelay < diff → scheduleTimeout now next = Ok (Some (maxDelay, Reevaluate))) ∧
  (∀ d ia, scheduleTimeout now next = Ok (Some (d, Fire ia)) →
           diff < maxDelay ∧ diff ≤ maxDelay ∧ d = diff ∧ ia = intendedAt) ∧
  (∀ (w : World) (id : nat) (iv : Interval),
     timers w !! id = Some iv →
     t iv = Some (maxDelay, Reevaluate) →
     let now' := clock w (ticks w) in
     jobCalls (timeoutFires id w).2 = jobCalls w ∧
     _collection (timeoutFires id w).2 = _collection w ∧
     logged (timeoutFires id w).2 = logged w ∧
     match scheduleTimeout now' (sched iv 2%nat now') with
     | Ok p =>
         (timeoutFires id w).1 = Ok () ∧
         timers (timeoutFires id w).2 !! id =
           Some {| fn := fn iv; sched := sched iv; done := done iv; t := p |}
     | Throw e => (timeoutFires id w).1 = Throw e
     end).
Proof.
  intros Hpick. rewrite (scheduleTimeout_picked _ _ _ _ Hpick).
  split; [|split].
  - intros Hd. by rewrite arm_wake by lia.
  - intros d ia [= Harm]. apply arm_fire_inv in Harm. lia.
  - intros w id iv Hiv Ht now'.
    rewrite (timeoutFires_reevaluate id w iv _ Hiv Ht).
    destruct (rearm_frame id (sched iv) (fired id w)) as (Hj & Hc & Hl & _).
    rewrite Hj, Hc, Hl. repeat split.
    pose proof (rearm_outcome id (sched iv) (fired id w)) as Hout.
    change (clock (fired id w) (ticks (fired id w))) with now' in Hout.
    destruct (scheduleTimeout now' (sched iv 2%nat now')) as [p|e] eqn:Hs.
    + split; [exact Hout|].
      erewrite rearm_pending; [|by apply fired_lookup|exact Hs]. reflexivity.
    + exact Hout.
Qed.

Lemma maximum_delay_overflow_rule_witness :
  pickOccurrence 0 [3000000000; 3000060000] = Ok (Some (3000000000, 3000000000)) ∧
  scheduleTimeout 0 [3000000000; 3000060000] = Ok (Some (maxDelay, Reevaluate)).
Proof.
  split; [reflexivity|].
  refine (proj1 (maximum_delay_overflow_rule 0 [3000000000; 3000060000]
                   3000000000 3000000000 _) _).
  - reflexivity.
  - unfold maxDelay. lia.
Defined.

(** * The collection *)

Section Collection.

Implicit Types (s : Store) (d : Doc.t) (ds : list Doc.t) (m : Modifier).

Lemma hasKey_applySet at_ nm m d : hasKey at_ nm (applySet m d) = hasKey at_ nm d.
Proof. reflexivity. Qed.

Lemma existsb_updateFirst at_ nm id m ds :
  existsb (hasKey at_ nm) (updateFirst id m ds) = existsb (hasKey at_ nm) ds.
Proof.
  induction ds as [|d ds IH]; simpl; [done|].
  destruct (Nat.eqb (Doc._id d) id); simpl; [done|]. by rewrite IH.
Qed.

Lemma length_updateFirst id m ds : length (updateFirst id m ds) = length ds.
Proof.
  induction ds as [|d ds IH]; simpl; [done|].
  destruct (Nat.eqb (Doc._id d) id); simpl; [done|]. by rewrite IH.
Qed.

Lemma keyFilter_updateFirst at_ nm id m ds :
  length (filter (λ d, hasKey at_ nm d = true) (updateFirst id m ds)) =
  length (filter (λ d, hasKey at_ nm d = true) ds).
Proof.
  induction ds as [|d ds IH]; simpl; [done|].
  destruct (Nat.eqb (Doc._id d) id).
  - rewrite !filter_cons, hasKey_applySet. by case_decide.
  - rewrite !filter_cons. case_decide; simpl; by rewrite IH.
Qed.

Lemma keyFilter_none at_ nm ds :
  existsb (hasKey at_ nm) ds = false →
  filter (λ d, hasKey at_ nm d = true) ds = [].
Proof.
  induction ds as [|d ds IH]; simpl; [done|].
  intros [Hd Hds]%orb_false_iff.
  rewrite filter_cons. case_decide; [congruence | auto].
Qed.

(** The update reaches the document just inserted when the older ones have
    other identifiers. *)
Lemma updateFirst_last id m ds d :
  forallb (λ d', Nat.ltb (Doc._id d') id) ds = true →
  Doc._id d = id →
  updateFirst id m (ds ++ [d]) = ds ++ [applySet m d].
Proof.
  intros Hds Hd. induction ds as [|d' ds IH]; simpl in *.
  - by rewrite Hd, Nat.eqb_refl.
  - apply andb_true_iff in Hds as [Hlt Hds].
    apply Nat.ltb_lt in Hlt.
    destruct (Nat.eqb_spec (Doc._id d') id); [lia|]. by rewrite IH.
Qed.

Lemma insertAsync_free at_ nm started s :
  taken at_ nm s = false →
  insertAsync at_ nm started s =
    (Ok (nextId s),
     {| docs := docs s ++
          [{| Doc._id := nextId s; Doc.intendedAt := at_; Doc.name := nm;
              Doc.startedAt := started; Doc.finishedAt := None;
              Doc.result := None; Doc.error := None |}];
        nextId := S (nextId s);
        uniqueIndex := uniqueIndex s; ttlIndex := ttlIndex s |}).
Proof. intros H. unfold insertAsync. by rewrite H. Qed.

Lemma insertAsync_taken at_ nm started s :
  taken at_ nm s = true →
  insertAsync at_ nm started s = (Throw DuplicateKey, s).
Proof. intros H. unfold insertAsync. by rewrite H. Qed.

Lemma ledgerOk_weaken ds n n' :
  (n ≤ n')%nat →
  forallb (λ d, Nat.ltb (Doc._id d) n && shapeOk d) ds = true →
  forallb (λ d, Nat.ltb (Doc._id d) n' && shapeOk d) ds = true.
Proof.
  intros Hn. rewrite !forallb_forall. intros H d Hd.
  specialize (H d Hd). apply andb_true_iff in H as [Hlt Hs].
  apply Nat.ltb_lt in Hlt. apply andb_true_iff. split; [|done].
  apply Nat.ltb_lt. lia.
Qed.

Lemma ledgerOk_ids ds n :
  forallb (λ d, Nat.ltb (Doc._id d) n && shapeOk d) ds = true →
  forallb (λ d, Nat.ltb (Doc._id d) n) ds = true.
Proof.
  rewrite !forallb_forall. intros H d Hd.
  specialize (H d Hd). by apply andb_true_iff in H as [Hlt _].
Qed.

Lemma ledgerOk_empty : ledgerOk emptyStore = true.
Proof. reflexivity. Qed.

Lemma shapeOk_not_both d :
  shapeOk d = true → ¬ (is_Some (Doc.result d) ∧ is_Some (Doc.error d)).
Proof.
  unfold shapeOk. intros H [[v Hv] [e He]]. rewrite Hv, He in H.
  by destruct (Doc.finishedAt d).
Qed.

Lemma ledgerOk_not_both s d :
  ledgerOk s = true → d ∈ docs s →
  ¬ (is_Some (Doc.result d) ∧ is_Some (Doc.error d)).
Proof.
  unfold ledgerOk. rewrite forallb_forall. intros H Hd.
  apply list_elem_of_In in Hd. specialize (H d Hd).
  apply andb_true_iff in H as [_ H]. by apply shapeOk_not_both.
Qed.

End Collection.

(** * The execution wrapper *)

(** What the store keeps of an error detail. *)
Lemma sent_errDetail (e : JsVal) :
  sent (Some (errDetail e)) =
    if truthy e && truthy (getProp e "stack")
    then Some (stored (getProp e "stack"))
    else match e with VUndefined => None | _ => Some (stored e) end.
Proof.
  unfold errDetail.
  destruct (truthy e && truthy (getProp e "stack")) eqn:H.
  - apply andb_true_iff in H as [_ H]. by destruct (getProp e "stack").
  - by destruct e.
Qed.

Section Wrapper.

Implicit Types (entry : Entry) (w : World) (d : Z).

(** A duplicate key: the claim logs and the wrapper returns. *)
Lemma wrapper_skip entry d w :
  persist entry = true →
  taken (setMilliseconds0 d) (name entry) (_collection w) = true →
  _entryWrapper entry d w =
    (Ok VUndefined,
     {| clock := clock w; ticks := S (ticks w); options := options w;
        laterUTC := laterUTC w; _collection := _collection w;
        indexCalls := indexCalls w;
        logged := logged w ++ [notRunningCall entry]; jobCalls := jobCalls w;
        _entries := _entries w; running := running w; timers := timers w |}).
Proof.
  intros Hp Ht. run_monad. rewrite Hp. simpl.
  rewrite insertAsync_taken by done. simpl.
  by destruct (_collection w).
Qed.

(** A successful claim: the job runs and the record is completed. *)
Lemma wrapper_run_persist entry d w :
  persist entry = true →
  taken (setMilliseconds0 d) (name entry) (_collection w) = false →
  _entryWrapper entry d w =
    (Ok VUndefined,
     {| clock := clock w; ticks := S (S (ticks w)); options := options w;
        laterUTC := laterUTC w;
        _collection :=
          updateAsync (nextId (_collection w))
            (completion (job entry (setMilliseconds0 d) (name entry))
                        (clock w (S (ticks w))))
            (insertAsync (setMilliseconds0 d) (name entry) (clock w (ticks w))
                         (_collection w)).2;
        indexCalls := indexCalls w;
        logged := logged w ++
                  runCalls entry (job entry (setMilliseconds0 d) (name entry));
        jobCalls := jobCalls w ++ [(setMilliseconds0 d, name entry)];
        _entries := _entries w; running := running w; timers := timers w |}).
Proof.
  intros Hp Ht. run_monad. rewrite Hp. simpl.
  rewrite insertAsync_free by done. simpl.
  destruct (job entry (setMilliseconds0 d) (name entry)); simpl;
    rewrite ?Hp; simpl; rewrite <- ?app_assoc; reflexivity.
Qed.

(** No persistence: the job runs, the collection is not touched. *)
Lemma wrapper_run_volatile entry d w :
  persist entry = false →
  _entryWrapper entry d w =
    (Ok VUndefined,
     {| clock := clock w; ticks := ticks w; options := options w;
        laterUTC := laterUTC w; _collection := _collection w;
        indexCalls := indexCalls w;
        logged := logged w ++
                  runCalls entry (job entry (setMilliseconds0 d) (name entry));
        jobCalls := jobCalls w ++ [(setMilliseconds0 d, name entry)];
        _entries := _entries w; running := running w; timers := timers w |}).
Proof.
  intros Hp. run_monad. rewrite Hp. simpl.
  destruct (job entry (setMilliseconds0 d) (name entry)); simpl;
    rewrite ?Hp; simpl; rewrite <- ?app_assoc; reflexivity.
Qed.

End Wrapper.

Section WrapperFacts.

Implicit Types (entry : Entry) (w : World) (d : Z) (s : Store).

(** The three cases of a call. *)
Lemma wrapper_cases entry d w :
  (persist entry = true ∧
   taken (setMilliseconds0 d) (name entry) (_collection w) = true) ∨
  (persist entry = true ∧
   taken (setMilliseconds0 d) (name entry) (_collection w) = false) ∨
  persist entry = false.
Proof.
  destruct (persist entry); [|auto].
  destruct (taken _ _ _); auto.
Qed.

(** With a store that rejects only duplicates, the wrapper never raises. *)
Lemma wrapper_returns entry d w : (_entryWrapper entry d w).1 = Ok VUndefined.
Proof.
  destruct (wrapper_cases entry d w) as [[Hp Ht]|[[Hp Ht]|Hp]].
  - by rewrite wrapper_skip.
  - by rewrite wrapper_run_persist.
  - by rewrite wrapper_run_volatile.
Qed.

(** It leaves the registry and the timers alone. *)
Lemma wrapper_frame entry d w :
  timers (_entryWrapper entry d w).2 = timers w ∧
  _entries (_entryWrapper entry d w).2 = _entries w ∧
  running (_entryWrapper entry d w).2 = running w ∧
  clock (_entryWrapper entry d w).2 = clock w ∧
  indexCalls (_entryWrapper entry d w).2 = indexCalls w.
Proof.
  destruct (wrapper_cases entry d w) as [[Hp Ht]|[[Hp Ht]|Hp]].
  - by rewrite wrapper_skip.
  - by rewrite wrapper_run_persist.
  - by rewrite wrapper_run_volatile.
Qed.

(** The record of a run whose claim succeeded on a well-formed ledger. *)
Lemma run_record entry d w :
  ledgerOk (_collection w) = true →
  persist entry = true →
  taken (setMilliseconds0 d) (name entry) (_collection w) = false →
  docs (_collection (_entryWrapper entry d w).2) =
    docs (_collection w) ++
    [applySet
       (completion (job entry (setMilliseconds0 d) (name entry))
                   (clock w (S (ticks w))))
       {| Doc._id := nextId (_collection w);
          Doc.intendedAt := setMilliseconds0 d; Doc.name := name entry;
          Doc.startedAt := clock w (ticks w); Doc.finishedAt := None;
          Doc.result := None; Doc.error := None |}] ∧
  nextId (_collection (_entryWrapper entry d w).2) = S (nextId (_collection w)).
Proof.
  intros Hok Hp Ht. rewrite wrapper_run_persist by done. simpl.
  rewrite insertAsync_free by done. simpl. split; [|done].
  apply updateFirst_last; [|done]. by apply ledgerOk_ids.
Qed.

Lemma ledgerOk_preserved entry d w :
  ledgerOk (_collection w) = true →
  ledgerOk (_collection (_entryWrapper entry d w).2) = true.
Proof.
  intros Hok.
  destruct (wrapper_cases entry d w) as [[Hp Ht]|[[Hp Ht]|Hp]].
  - by rewrite wrapper_skip.
  - destruct (run_record entry d w Hok Hp Ht) as [Hdocs Hnext].
    unfold ledgerOk. rewrite Hdocs, Hnext, forallb_app. apply andb_true_iff. split.
    + apply ledgerOk_weaken with (n := nextId (_collection w)); [lia | exact Hok].
    + simpl. rewrite andb_true_r. apply andb_true_iff. split.
      * apply Nat.ltb_lt. lia.
      * destruct (job entry (setMilliseconds0 d) (name entry)) as [v|e]; simpl;
          [by destruct v | by destruct (errDetail e)].
  - by rewrite wrapper_run_volatile.
Qed.

Lemma hasKey_refl at_ nm (r : Doc.t) :
  Doc.intendedAt r = at_ → Doc.name r = nm → hasKey at_ nm r = true.
Proof.
  intros <- <-. unfold hasKey. by rewrite Z.eqb_refl, String.eqb_refl.
Qed.

(** Once a persisting entry has been called for an occurrence, the key of
    that occurrence is held, whatever the outcome of the call. *)
Lemma key_held_after entry d w :
  persist entry = true →
  uniqueIndex (_collection w) = true →
  uniqueIndex (_collection (_entryWrapper entry d w).2) = true ∧
  held (setMilliseconds0 d) (name entry) (_collection (_entryWrapper entry d w).2) = true.
Proof.
  intros Hp Hu.
  destruct (taken (setMilliseconds0 d) (name entry) (_collection w)) eqn:Ht.
  - rewrite wrapper_skip by done. simpl. split; [done|].
    unfold taken in Ht. by apply andb_true_iff in Ht as [_ Ht].
  - rewrite wrapper_run_persist by done. simpl.
    rewrite insertAsync_free by done. simpl. split; [done|].
    unfold held. cbn [docs updateAsync].
    rewrite existsb_updateFirst, existsb_app. cbn [existsb].
    rewrite hasKey_refl by done. by rewrite !orb_true_r.
Qed.

End WrapperFacts.

(** * Claims on the execution wrapper *)

Lemma taken_of_held at_ nm s : held at_ nm s = false → taken at_ nm s = false.
Proof. intros H. unfold taken. rewrite H. apply andb_false_r. Qed.

Lemma keyCount_after_claim at_ nm started m s :
  held at_ nm s = false →
  keyCount at_ nm (updateAsync (nextId s) m (insertAsync at_ nm started s).2) = 1%nat.
Proof.
  intros Hh. rewrite insertAsync_free by by apply taken_of_held.
  unfold keyCount. cbn [docs updateAsync snd].
  rewrite keyFilter_updateFirst, filter_app, keyFilter_none by exact Hh.
  rewrite filter_cons, filter_nil. rewrite decide_True; [done|].
  by apply hasKey_refl.
Qed.

(** C1, as stated, fails on its last part: after startup on an empty
    collection the wrapper of the test entry is called twice for the same
    date; one record, of identifier 0, is in the collection, and both calls
    return [undefined]: the second call returns no record identity. *)
Lemma second_attempt_returns_no_identity :
  let w := (startup (world0 ∅)).2 in
  let first := _entryWrapper TestEntry 5000777 w in
  let second := _entryWrapper TestEntry 5000777 first.2 in
  map Doc._id (docs (_collection second.2)) = [0%nat] ∧
  first.1 = Ok VUndefined ∧
  second.1 = Ok VUndefined ∧
  ¬ ∃ v, v ≠ VUndefined ∧ second.1 = Ok v.
Proof.
  vm_compute. repeat split; try reflexivity.
  intros [v [Hne [= <-]]]. by apply Hne.
Qed.

(** C1, amended. For an entry that persists, on a collection with the
    unique index where the key of the occurrence is free, two calls of the
    wrapped function for the same date leave exactly one record with that
    key (one record more than before) and call the job exactly once. The
    second call meets the duplicate key, logs that the job is not run
    again, and leaves the collection as the first call left it, so the
    record keeps its identity. Both calls return [undefined]. *)
Theorem second_attempt_is_skipped (entry : Entry) (d : Z) (w : World) :
  persist entry = true →
  uniqueIndex (_collection w) = true →
  held (setMilliseconds0 d) (name entry) (_collection w) = false →
  let first := _entryWrapper entry d w in
  let second := _entryWrapper entry d first.2 in
  first.1 = Ok VUndefined ∧
  second.1 = Ok VUndefined ∧
  taken (setMilliseconds0 d) (name entry) (_collection first.2) = true ∧
  keyCount (setMilliseconds0 d) (name entry) (_collection second.2) = 1%nat ∧
  length (docs (_collection second.2)) = S (length (docs (_collection w))) ∧
  jobCalls second.2 = jobCalls w ++ [(setMilliseconds0 d, name entry)] ∧
  logged second.2 = logged first.2 ++ [notRunningCall entry] ∧
  _collection second.2 = _collection first.2.
Proof.
  intros Hp Hu Hh first second.
  assert (Ht : taken (setMilliseconds0 d) (name entry) (_collection w) = false)
    by by apply taken_of_held.
  assert (Ht' : taken (setMilliseconds0 d) (name entry) (_collection first.2) = true).
  { destruct (key_held_after entry d w Hp Hu) as [Hu' Hh'].
    unfold taken, first. by rewrite Hu', Hh'. }
  assert (Hsecond : second = _entryWrapper entry d first.2) by done.
  rewrite wrapper_skip in Hsecond by done.
  assert (Hfirst : first = _entryWrapper entry d w) by done.
  rewrite wrapper_run_persist in Hfirst by done.
  rewrite Hsecond. cbn [fst snd _collection jobCalls logged].
  split; [by rewrite Hfirst|]. split; [done|]. split; [done|].
  rewrite Hfirst. cbn [fst snd _collection jobCalls logged].
  split; [by apply keyCount_after_claim|].
  split; [|done].
  rewrite insertAsync_free by done. cbn [docs updateAsync snd].
  rewrite length_updateFirst, length_app. simpl. lia.
Qed.

Lemma second_attempt_is_skipped_witness :
  let w := (startup (world0 ∅)).2 in
  let first := _entryWrapper TestEntry 5000777 w in
  let second := _entryWrapper TestEntry 5000777 first.2 in
  persist TestEntry = true ∧
  uniqueIndex (_collection w) = true ∧
  held (setMilliseconds0 5000777) (name TestEntry) (_collection w) = false ∧
  length (docs (_collection second.2)) = 1%nat ∧
  jobCalls second.2 = [(5000000, "Test Job")].
Proof.
  pose proof (second_attempt_is_skipped TestEntry 5000777 (startup (world0 ∅)).2
                eq_refl eq_refl eq_refl) as H.
  cbv zeta in H. destruct H as (_ & _ & _ & _ & Hlen & Hjobs & _).
  split; [reflexivity|]. split; [reflexivity|]. split; [reflexivity|].
  split; [exact Hlen | exact Hjobs].
Defined.

(** With the index in place and an empty collection, a persisted run of a
    job that does [throw undefined] reaches completion and its record ends
    with [finishedAt] only: the failure left no [error]. A job that
    returns [undefined] likewise leaves no [result]. *)
Lemma undefined_outcome_sets_neither_field :
  let w := (startup (world0 ∅)).2 in
  job ThrowsUndefined 5000000 "Test Job" = Throws VUndefined ∧
  docs (_collection (_entryWrapper ThrowsUndefined 5000777 w).2) =
    [{| Doc._id := 0; Doc.intendedAt := 5000000; Doc.name := "Test Job";
        Doc.startedAt := 1000001; Doc.finishedAt := Some 1000002;
        Doc.result := None; Doc.error := None |}] ∧
  job ReturnsNothing 5000000 "Test Job" = Returns VUndefined ∧
  docs (_collection (_entryWrapper ReturnsNothing 5000777 w).2) =
    [{| Doc._id := 0; Doc.intendedAt := 5000000; Doc.name := "Test Job";
        Doc.startedAt := 1000001; Doc.finishedAt := Some 1000002;
        Doc.result := None; Doc.error := None |}].
Proof. vm_compute. repeat split; reflexivity. Qed.

(** C6, amended. On a well-formed ledger, a call of the wrapped function
    keeps the ledger well formed, and no record has both [result] and
    [error] set. When the entry persists and the claim succeeds, the call
    appends one record for the occurrence, started at the first reading of
    the clock and finished at the second. If the job returned a value other
    than [undefined], [result] is that value and [error] is unset. If the
    job failed with a value other than [undefined], [error] is set, to the
    [stack] of the thrown value when it has a truthy one and to the thrown
    value itself otherwise, and [result] is unset. Values are kept as the
    driver writes them ([stored]: a string, number, boolean or [null] as
    it is, an object without its [undefined] fields). A returned or thrown
    [undefined] is not stored: the record ends with [finishedAt] only. *)
Theorem result_xor_error (entry : Entry) (d : Z) (w : World) :
  ledgerOk (_collection w) = true →
  let at_ := setMilliseconds0 d in
  let w' := (_entryWrapper entry d w).2 in
  ledgerOk (_collection w') = true ∧
  (∀ r, r ∈ docs (_collection w') →
        ¬ (is_Some (Doc.result r) ∧ is_Some (Doc.error r))) ∧
  (persist entry = true →
   taken at_ (name entry) (_collection w) = false →
   ∃ r, docs (_collection w') = docs (_collection w) ++ [r] ∧
        Doc._id r = nextId (_collection w) ∧
        Doc.intendedAt r = at_ ∧ Doc.name r = name entry ∧
        Doc.startedAt r = clock w (ticks w) ∧
        Doc.finishedAt r = Some (clock w (S (ticks w))) ∧
        match job entry at_ (name entry) with
        | Returns v =>
            Doc.error r = None ∧
            Doc.result r =
              match v with VUndefined => None | _ => Some (stored v) end
        | Throws e =>
            Doc.result r = None ∧
            Doc.error r =
              if truthy e && truthy (getProp e "stack")
              then Some (stored (getProp e "stack"))
              else match e with VUndefined => None | _ => Some (stored e) end
        end).
Proof.
  intros Hok at_ w'.
  pose proof (ledgerOk_preserved entry d w Hok) as Hok'.
  split; [exact Hok'|]. split.
  - intros r Hr. by apply (ledgerOk_not_both (_collection w')).
  - intros Hp Ht. destruct (run_record entry d w Hok Hp Ht) as [Hdocs _].
    eexists. split; [exact Hdocs|]. fold at_.
    destruct (job entry at_ (name entry)) as [v|e];
      cbn [applySet completion Doc._id Doc.intendedAt Doc.name Doc.startedAt
           Doc.finishedAt Doc.result Doc.error set_finishedAt set_result
           set_error orElse].
    + split_and!; try done. by destruct v.
    + split_and!; try done. rewrite <- sent_errDetail.
      by destruct (sent (Some (errDetail e))).
Qed.

Lemma result_xor_error_witness :
  let w := (startup (world0 ∅)).2 in
  ledgerOk (_collection w) = true ∧
  ledgerOk (_collection (_entryWrapper FailingEntry 5000777 w).2) = true ∧
  ∃ r, docs (_collection (_entryWrapper FailingEntry 5000777 w).2) = [r] ∧
       Doc.finishedAt r = Some 1000002 ∧
       Doc.result r = None ∧
       Doc.error r = Some (VStr "Error: Haha, gotcha!").
Proof.
  intros w.
  destruct (result_xor_error FailingEntry 5000777 w eq_refl) as (Hok & _ & Hrec).
  destruct (Hrec eq_refl eq_refl) as (r & Hdocs & _ & _ & _ & _ & Hfin & Hres & Herr).
  split; [reflexivity|]. split; [exact Hok|].
  exists r. split; [exact Hdocs|]. split; [exact Hfin|].
  split; [exact Hres | exact Herr].
Defined.

(** With the index in place and an empty collection, the job of a
    persisting entry does [throw undefined]: the failure is handed to
    [log] at level [error], and the record of the run has no [error]
    field. *)
Lemma undefined_failure_is_not_recorded :
  let w := (startup (world0 ∅)).2 in
  let w' := (_entryWrapper ThrowsUndefined 5000777 w).2 in
  job ThrowsUndefined 5000000 "Test Job" = Throws VUndefined ∧
  persist ThrowsUndefined = true ∧
  (_entryWrapper ThrowsUndefined 5000777 w).1 = Ok VUndefined ∧
  logged w' =
    [{| level := info;
        message := [Txt "Starting "; Quoted "Test Job"; Txt "."] |};
     {| level := error;
        message := [Txt "Exception "; Quoted "Test Job"; Txt " ";
                    Val VUndefined] |}] ∧
  map (λ r, (Doc.intendedAt r, Doc.name r, Doc.error r)) (docs (_collection w')) =
    [(5000000, "Test Job", None)].
Proof. vm_compute. repeat split; reflexivity. Qed.

(** C7, amended. When the job function fails in a run, the wrapped
    function returns normally and the failure has been handed to [log] at
    level [error] with the error detail: the [stack] of the thrown value
    when it has a truthy one, the thrown value itself otherwise. For an
    entry that persists, the record of the run has [result] unset and the
    detail, as the driver writes it, in [error], unless the detail is
    [undefined], which the store does not keep; for an entry that does not
    persist the collection is untouched. In the timer chain, the fire that ran the job goes on to a
    fresh [_laterSetTimeout] at the next reading of the clock [now], with
    [n0], [n1] the first two occurrences after [now]: nothing is left
    pending when there is none; the timeout is set on [n0] when it is at
    least 1000 ms away and on [n1] otherwise, firing at that occurrence
    when the delay is below 2147483647 ms and re-evaluating after
    2147483647 ms when it is not. The one case in which the chain stops is
    that of C2: a single occurrence left, less than 1000 ms away. *)
Theorem job_failure_is_contained (entry : Entry) (d : Z) (w : World) (e : JsVal) :
  let at_ := setMilliseconds0 d in
  job entry at_ (name entry) = Throws e →
  ledgerOk (_collection w) = true →
  (persist entry = true → taken at_ (name entry) (_collection w) = false) →
  let w' := (_entryWrapper entry d w).2 in
  let detail :=
    if truthy e && truthy (getProp e "stack") then getProp e "stack" else e in
  (_entryWrapper entry d w).1 = Ok VUndefined ∧
  logged w' = logged w ++
    [{| level := info;
        message := [Txt "Starting "; Quoted (name entry); Txt "."] |};
     {| level := error;
        message := [Txt "Exception "; Quoted (name entry); Txt " "; Val detail] |}] ∧
  jobCalls w' = jobCalls w ++ [(at_, name entry)] ∧
  (persist entry = true →
   ∃ r, docs (_collection w') = docs (_collection w) ++ [r] ∧
        Doc.intendedAt r = at_ ∧ Doc.name r = name entry ∧
        Doc.result r = None ∧
        Doc.error r =
          match detail with VUndefined => None | _ => Some (stored detail) end) ∧
  (persist entry = false → _collection w' = _collection w) ∧
  (∀ (id : nat) (iv : Interval) (w0 : World) (delay : Z),
     timers w0 !! id = Some iv →
     fn iv = entry → t iv = Some (delay, Fire d) → done iv = false →
     w = fired id w0 →
     let now := clock w' (ticks w') in
     let w2 := (timeoutFires id w0).2 in
     let armed (p : option (Z * TimerCallback)) :=
       (timeoutFires id w0).1 = Ok () ∧
       timers w2 !! id =
         Some {| fn := fn iv; sched := sched iv; done := false; t := p |} ∧
       logged w2 = logged w' ∧ jobCalls w2 = jobCalls w' ∧
       _collection w2 = _collection w' in
     match sched iv 2%nat now with
     | [] => armed None
     | n0 :: rest =>
         if 1000 <=? n0 - now then
           armed (Some (if n0 - now <? 2147483647 then (n0 - now, Fire n0)
                        else (2147483647, Reevaluate)))
         else
           match rest with
           | n1 :: _ =>
               armed (Some (if n1 - now <? 2147483647 then (n1 - now, Fire n1)
                            else (2147483647, Reevaluate)))
           | [] => (timeoutFires id w0).1 = Throw getTimeOfUndefined
           end
     end).
Proof.
  intros at_ Hjob Hok Hrun w' detail.
  split; [apply wrapper_returns|].
  assert (Hlog : logged w' = logged w ++ [startingCall entry; exceptionCall entry e] ∧
                 jobCalls w' = jobCalls w ++ [(at_, name entry)]).
  { unfold w'. destruct (persist entry) eqn:Hp.
    - rewrite wrapper_run_persist by auto. simpl. fold at_. by rewrite Hjob.
    - rewrite wrapper_run_volatile by auto. simpl. fold at_. by rewrite Hjob. }
  destruct Hlog as [Hlog Hjobs].
  split; [exact Hlog|]. split; [exact Hjobs|]. split; [|split].
  - intros Hp. destruct (run_record entry d w Hok Hp (Hrun Hp)) as [Hdocs _].
    eexists. split; [exact Hdocs|]. fold at_. rewrite Hjob.
    cbn [applySet completion Doc._id Doc.intendedAt Doc.name Doc.startedAt
         Doc.finishedAt Doc.result Doc.error set_finishedAt set_result
         set_error orElse].
    split_and!; try done.
    change (orElse (sent (Some (errDetail e))) None = sent (Some (errDetail e))).
    by destruct (sent (Some (errDetail e))).
  - intros Hp. unfold w'. by rewrite wrapper_run_volatile.
  - intros id iv w0 delay Hiv Hfn Ht Hdone -> now w2 armed.
    assert (Hchain : timeoutFires id w0 = rearm id (sched iv) w').
    { rewrite (timeoutFires_fire id w0 iv delay d Hiv Ht Hdone).
      unfold bind at 1, try_catch, bind at 1. rewrite Hfn.
      pose proof (wrapper_returns entry d (fired id w0)) as Hret.
      destruct (_entryWrapper entry d (fired id w0)) as [r w1] eqn:Hw.
      simpl in Hret. subst r. reflexivity. }
    pose proof (rearm_outcome id (sched iv) w') as Hout. fold now in Hout.
    assert (Harmed : ∀ p, scheduleTimeout now (sched iv 2%nat now) = Ok p → armed p).
    { intros p Hs. unfold armed, w2. rewrite Hchain.
      rewrite Hs in Hout. split; [exact Hout|].
      destruct (rearm_frame id (sched iv) w') as (Hj & Hc & Hl & _).
      split; [|by rewrite Hj, Hc, Hl].
      rewrite (rearm_pending id (sched iv) w'
                 {| fn := fn iv; sched := sched iv; done := done iv; t := None |} p);
        [| |exact Hs].
      - simpl. by rewrite Hdone.
      - unfold w'. destruct (wrapper_frame entry d (fired id w0)) as [-> _].
        by apply fired_lookup. }
    rewrite scheduleTimeout_cases in Hout, Harmed. unfold maxDelay in *.
    destruct (sched iv 2%nat now) as [|n0 rest]; [by apply Harmed|].
    destruct (1000 <=? n0 - now); [by apply Harmed|].
    destruct rest as [|n1 rest]; [|by apply Harmed].
    by rewrite Hchain.
Qed.

Lemma job_failure_is_contained_witness :
  let w := (startup (world0 ∅)).2 in
  let w' := (_entryWrapper FailingEntry 5000777 w).2 in
  job FailingEntry (setMilliseconds0 5000777) "Test Job" = Throws gotcha ∧
  ledgerOk (_collection w) = true ∧
  (_entryWrapper FailingEntry 5000777 w).1 = Ok VUndefined ∧
  logged w' = logged w ++
    [{| level := info;
        message := [Txt "Starting "; Quoted "Test Job"; Txt "."] |};
     {| level := error;
        message := [Txt "Exception "; Quoted "Test Job"; Txt " ";
                    Val (VStr "Error: Haha, gotcha!")] |}].
Proof.
  intros w w'.
  destruct (job_failure_is_contained FailingEntry 5000777 w gotcha
              eq_refl eq_refl (λ _, eq_refl)) as (Hret & Hlog & _).
  split; [reflexivity|]. split; [reflexivity|].
  split; [exact Hret | exact Hlog].
Defined.



(** * Startup: the retention floor *)

(** A collection that already holds two records of one occurrence (written
    before there was a unique index), and a configured TTL of 120 seconds:
    the unique index cannot be built, the TTL step is never reached, and
    the only call to [log] is the error of the index creation. No warning
    names the floor. *)
Lemma no_warning_when_unique_index_fails :
  let r := {| Doc._id := 0; Doc.intendedAt := 5000000; Doc.name := "Test Job";
              Doc.startedAt := 5000001; Doc.finishedAt := None;
              Doc.result := None; Doc.error := None |} in
  let r' := {| Doc._id := 1; Doc.intendedAt := 5000000; Doc.name := "Test Job";
               Doc.startedAt := 5000002; Doc.finishedAt := None;
               Doc.result := None; Doc.error := None |} in
  let w := {| clock := λ _, 0; ticks := 0;
              options := {| log_opt := true; logger := false;
                            collectionName := "cronHistory"; utc := false;
                            collectionTTL := Some 120 |};
              laterUTC := false;
              _collection := {| docs := [r; r']; nextId := 2;
                                uniqueIndex := false; ttlIndex := None |};
              indexCalls := [];
              logged := []; jobCalls := []; _entries := ∅; running := false;
              timers := [] |} in
  collectionTTL (options w) = Some 120 ∧
  (startup w).1 = Ok () ∧
  logged (startup w).2 =
    [{| level := error;
        message := [Txt "Error creating indexes: ";
                    Val (VStr "E11000 duplicate key error")] |}] ∧
  ¬ (ttlWarning ∈ logged (startup w).2) ∧
  indexCalls (startup w).2 = [UniqueKey] ∧
  ttlIndex (_collection (startup w).2) = None.
Proof.
  cbv zeta.
  split; [reflexivity|]. split; [reflexivity|].
  split; [reflexivity|]. split; [|split; reflexivity].
  intros H. apply list_elem_of_singleton in H. discriminate H.
Qed.

(** C8, amended. Let the configured TTL be truthy. Whatever the
    collection holds, startup asks for an expiry index only with the
    configured value and only when that value exceeds 300 seconds, and the
    expiry index of the collection either stays as it was or becomes the
    configured value, above the floor. When the TTL is at or below the
    floor and the unique index is or can be put in place, so that the TTL
    step is reached, the only index call is the one for the unique key, the
    expiry index is left as it was, and one warning naming the floor is
    handed to [log]. When the unique index cannot be built, startup stops
    there: the collection is as it was and the one call to [log] is the
    error of the index creation. *)
Theorem ttl_floor (ttl : Z) (w : World) :
  collectionTTL (options w) = Some ttl →
  ttl ≠ 0 →
  let w' := (startup w).2 in
  (∀ n, ExpireAfter n ∈ indexCalls w' →
        ExpireAfter n ∈ indexCalls w ∨ (n = ttl ∧ minTTL < ttl)) ∧
  (ttlIndex (_collection w') = ttlIndex (_collection w) ∨
   (ttlIndex (_collection w') = Some ttl ∧ minTTL < ttl)) ∧
  (ttl ≤ minTTL →
   uniqueIndex (_collection w) = true ∨ dupKeys (docs (_collection w)) = false →
   (startup w).1 = Ok () ∧
   logged w' = logged w ++ [ttlWarning] ∧
   message ttlWarning =
     [Txt "Not going to use a TTL that is shorter than: "; Num 300] ∧
   indexCalls w' = indexCalls w ++ [UniqueKey] ∧
   ttlIndex (_collection w') = ttlIndex (_collection w)) ∧
  (minTTL < ttl →
   uniqueIndex (_collection w) = true ∨ dupKeys (docs (_collection w)) = false →
   indexCalls w' = indexCalls w ++ [UniqueKey; ExpireAfter ttl]) ∧
  (uniqueIndex (_collection w) = false →
   dupKeys (docs (_collection w)) = true →
   (startup w).1 = Ok () ∧
   logged w' = logged w ++
     [{| level := error;
         message := [Txt "Error creating indexes: ";
                     Val (getProp DuplicateKey "message")] |}] ∧
   indexCalls w' = indexCalls w ++ [UniqueKey] ∧
   _collection w' = _collection w).
Proof.
  intros Httl Hnz w'. subst w'.
  unfold startup, bind, try_catch, get, modify, createIndexM, log, ret. simpl.
  rewrite Httl. unfold createIndexAsync, minTTL.
  destruct (Z.eqb_spec ttl 0) as [|_]; [done|]. simpl.
  destruct (Z.ltb_spec 300 ttl) as [Hgt|Hle];
    destruct (uniqueIndex (_collection w)) eqn:Hu; simpl;
    try (destruct (dupKeys (docs (_collection w))) eqn:Hdup; simpl);
    try (destruct (ttlIndex (_collection w)) as [m|] eqn:Hix; simpl;
         try (destruct (Z.eqb_spec m ttl) as [Hm|Hm]; simpl)).
  all: split;
    [intros x Hx; rewrite ?elem_of_app, ?elem_of_cons, ?elem_of_nil in Hx;
     destruct_or! Hx; try done; try (by left);
     injection Hx as ->; right; split; first [done | lia]|].
  all: split; [first [by left | right; split; [by subst | lia]]|].
  all: split; [intros Hc [Hd|Hd]; try lia; try congruence;
               rewrite <- ?app_assoc; try done; split_and!; done|].
  all: split; [intros Hc [Hd|Hd]; try lia; try congruence;
               rewrite <- ?app_assoc; done|].
  all: intros Hu' Hd'; try congruence.
  all: split_and!; try done; by destruct (_collection w).
Qed.

Lemma ttl_floor_witness :
  let w := {| clock := λ _, 0; ticks := 0;
              options := {| log_opt := true; logger := false;
                            collectionName := "cronHistory"; utc := false;
                            collectionTTL := Some 120 |};
              laterUTC := false; _collection := emptyStore; indexCalls := [];
              logged := []; jobCalls := []; _entries := ∅; running := false;
              timers := [] |} in
  collectionTTL (options w) = Some 120 ∧
  120 ≠ 0 ∧
  logged (startup w).2 = [ttlWarning] ∧
  indexCalls (startup w).2 = [UniqueKey] ∧
  ttlIndex (_collection (startup w).2) = None.
Proof.
  intros w.
  destruct (ttl_floor 120 w eq_refl ltac:(lia)) as (_ & _ & H & _).
  destruct (H ltac:(unfold minTTL; lia) (or_intror eq_refl)) as (_ & Hl & _ & Hc & Hi).
  split; [reflexivity|]. split; [lia|].
  split; [exact Hl|]. split; [exact Hc | exact Hi].
Defined.

(** * The registry *)

Section Registry.

Implicit Types (w : World) (k : string) (entry : Entry).

(** One [scheduleEntry] that returns: a new live interval at the end of
    the timer table, whose handle replaces the entry's. *)
Lemma scheduleEntry_ok k entry w w1 :
  scheduleEntry k entry w = (Ok (), w1) →
  (∃ p, timers w1 =
        timers w ++ [{| fn := entry; sched := schedule entry; done := false; t := p |}]) ∧
  _entries w1 = <[k := withTimer (length (timers w)) entry]> (_entries w) ∧
  running w1 = running w.
Proof.
  unfold scheduleEntry, _laterSetInterval, _laterSetTimeout, liftRes, log,
    modify, get, Date_now, bind, ret. simpl.
  destruct (scheduleTimeout _ _) as [p|e]; simpl; [|discriminate].
  intros [= <-]. simpl. eauto.
Qed.

(** The loop of [start] over a list of entries with distinct names. *)
Lemma forEach_scheduleEntry (l : list (string * Entry)) : ∀ w w',
  NoDup l.*1 →
  forEach (λ '(k, entry), scheduleEntry k entry) l w = (Ok (), w') →
  (∃ news, timers w' = timers w ++ news ∧ length news = length l ∧
           Forall (λ iv, done iv = false) news) ∧
  (∀ k entry, (k, entry) ∈ l →
     ∃ id, _entries w' !! k = Some (withTimer id entry) ∧
           (length (timers w) ≤ id < length (timers w'))%nat) ∧
  (∀ k, k ∉ l.*1 → _entries w' !! k = _entries w !! k) ∧
  running w' = running w.
Proof.
  induction l as [|[k0 e0] l IH]; intros w w' Hnd Hrun.
  - simpl in Hrun. injection Hrun as <-. split_and!.
    + exists []. by rewrite app_nil_r.
    + intros k entry Hin. by apply elem_of_nil in Hin.
    + done.
    + done.
  - simpl in Hrun. unfold bind in Hrun.
    destruct (scheduleEntry k0 e0 w) as [[[]|e] w1] eqn:H1; [|discriminate].
    apply scheduleEntry_ok in H1 as ([p Ht1] & He1 & Hr1).
    apply NoDup_cons in Hnd as [Hk0 Hnd].
    destruct (IH w1 w' Hnd Hrun) as ((news & Ht & Hlen & Hlive) & Hnew & Hold & Hr).
    assert (Hlen1 : length (timers w1) = S (length (timers w)))
      by (rewrite Ht1, length_app; simpl; lia).
    split_and!.
    + eexists (_ :: news). split; [|split].
      * rewrite Ht, Ht1, <- app_assoc. reflexivity.
      * simpl. by rewrite Hlen.
      * by constructor.
    + intros k entry [[= -> ->]|Hin]%elem_of_cons.
      * exists (length (timers w)). split.
        -- rewrite Hold by exact Hk0. rewrite He1. apply lookup_insert_eq.
        -- rewrite Ht, length_app, Hlen1. lia.
      * destruct (Hnew k entry Hin) as (id & Hid & Hrange).
        exists id. split; [exact Hid | lia].
    + intros k Hk. simpl in Hk. apply not_elem_of_cons in Hk as [Hne Hk].
      rewrite Hold by exact Hk. rewrite He1. by apply lookup_insert_ne.
    + by rewrite Hr.
Qed.

End Registry.

Lemma returned_eta {A} (x : Res A * World) (a : A) : x.1 = Ok a → x = (Ok a, x.2).
Proof. destruct x as [r w]. simpl. by intros ->. Qed.

(** [start()] returns when the scheduling step raises for no entry. *)
Lemma scheduleEntry_returns k entry w :
  schedulable (schedule entry) → ∃ w1, scheduleEntry k entry w = (Ok (), w1).
Proof.
  intros Hs. destruct (Hs (clock w (ticks w))) as [p Hp].
  unfold scheduleEntry, _laterSetInterval, _laterSetTimeout, liftRes, log,
    modify, get, Date_now, bind, ret. simpl.
  rewrite Hp. simpl. eauto.
Qed.

Lemma forEach_returns (l : list (string * Entry)) : ∀ w,
  Forall (λ ke, schedulable (schedule ke.2)) l →
  ∃ w', forEach (λ '(k, entry), scheduleEntry k entry) l w = (Ok (), w').
Proof.
  induction l as [|[k0 e0] l IH]; intros w Hl.
  - simpl. unfold ret. eauto.
  - apply Forall_cons in Hl as [H0 Hl]. simpl in H0.
    destruct (scheduleEntry_returns k0 e0 w H0) as [w1 H1].
    destruct (IH w1 Hl) as [w' H']. exists w'.
    simpl. unfold bind. by rewrite H1.
Qed.

Lemma start_returns w :
  (∀ k entry, _entries w !! k = Some entry → schedulable (schedule entry)) →
  ∃ w', start w = (Ok (), w').
Proof.
  intros Hs.
  destruct (forEach_returns (map_to_list (_entries w)) w) as [w1 H1].
  { apply Forall_forall. intros [k e] Hin. simpl.
    apply elem_of_map_to_list in Hin. by eapply Hs. }
  unfold start, bind at 1, get. unfold bind. rewrite H1.
  unfold modify. eauto.
Qed.

Lemma everyMs_schedulable period : schedulable (everyMs period).
Proof.
  intros now. unfold scheduleTimeout, pickOccurrence, everyMs. simpl.
  destruct (_ <? 1000); eauto.
Qed.

(** * Claims on the registry *)

(** C3. [start()] is not idempotent, and the timer it duplicates cannot
    be stopped. With one registered entry, a second [start()] on the
    running scheduler creates a second timer and overwrites the entry's
    handle with it, without clearing the first. No handle to the first
    timer is left: [stop()] empties the registry and clears the running
    flag, yet the first timer is still live with its timeout pending, and
    when that timeout elapses the job of the removed entry runs and the
    timer is armed again. *)
Theorem second_start_leaks_first_timer :
  let w := world1 {[ "Test Job" := TestEntry ]} in
  let w1 := (start w).2 in
  let w2 := (start w1).2 in
  let w3 := (stop w2).2 in
  let w4 := (timeoutFires 0 w3).2 in
  (start w).1 = Ok () ∧ (start w1).1 = Ok () ∧ (stop w2).1 = Ok () ∧
  running w1 = true ∧
  map (λ iv, (done iv, t iv)) (timers w1) =
    [(false, Some (19999, Fire 1020000))] ∧
  _timer <$> _entries w1 !! "Test Job" = Some (Some 0%nat) ∧
  running w2 = true ∧
  map (λ iv, (done iv, t iv)) (timers w2) =
    [(false, Some (19999, Fire 1020000)); (false, Some (19997, Fire 1020000))] ∧
  _timer <$> _entries w2 !! "Test Job" = Some (Some 1%nat) ∧
  size (_entries w3) = 0%nat ∧
  running w3 = false ∧
  map (λ iv, (done iv, t iv)) (timers w3) =
    [(false, Some (19999, Fire 1020000)); (true, None)] ∧
  jobCalls w3 = [] ∧
  (timeoutFires 0 w3).1 = Ok () ∧
  jobCalls w4 = [(1020000, "Test Job")] ∧
  map (λ r, (Doc.intendedAt r, Doc.name r, Doc.result r)) (docs (_collection w4)) =
    [(1020000, "Test Job", Some (VStr "ran"))] ∧
  map (λ iv, (done iv, t iv)) (timers w4) =
    [(false, Some (59994, Fire 1080000)); (true, None)].
Proof. vm_compute. repeat split; reflexivity. Qed.

(** X25. A [start()] that returns creates one new timer for every
    registered entry, whether or not the entry already has one, and sets
    the running state: the timer table grows by the number of entries, the
    timers it held are left as they were, the new ones are live, every
    entry's handle names a new timer, and no entry is added or removed. *)
Theorem start_schedules_every_entry (w w' : World) :
  start w = (Ok (), w') →
  running w' = true ∧
  length (timers w') = (length (timers w) + size (_entries w))%nat ∧
  (∀ i iv, timers w !! i = Some iv → timers w' !! i = Some iv) ∧
  (∀ i iv, (length (timers w) ≤ i)%nat → timers w' !! i = Some iv → done iv = false) ∧
  (∀ k entry, _entries w !! k = Some entry →
     ∃ id, _entries w' !! k = Some (withTimer id entry) ∧
           (length (timers w) ≤ id < length (timers w'))%nat) ∧
  (∀ k, _entries w !! k = None → _entries w' !! k = None).
Proof.
  unfold start, bind at 1, get.
  unfold bind. destruct (forEach _ _ w) as [[[]|e] w1] eqn:Hloop; [|discriminate].
  unfold modify. intros [= <-].
  apply forEach_scheduleEntry in Hloop
    as ((news & Ht & Hlen & Hlive) & Hnew & Hold & Hr);
    [|apply NoDup_fst_map_to_list].
  rewrite length_map_to_list in Hlen. simpl. split_and!.
  - done.
  - rewrite Ht, length_app. lia.
  - intros i iv Hi. rewrite Ht. apply lookup_app_l_Some. exact Hi.
  - intros i iv Hi Hlook. rewrite Ht, lookup_app_r in Hlook by exact Hi.
    rewrite Forall_lookup in Hlive. by eapply Hlive.
  - intros k entry Hk. apply Hnew. by apply elem_of_map_to_list.
  - intros k Hk. rewrite Hold; [exact Hk|].
    intros [[k' e'] [-> Hin]]%list_elem_of_fmap.
    apply elem_of_map_to_list in Hin. simpl in Hk. congruence.
Qed.

Lemma start_schedules_every_entry_witness :
  let w := world0 {[ "Test Job" := TestEntry ]} in
  start w = (Ok (), (start w).2) ∧
  running (start w).2 = true ∧
  length (timers (start w).2) = (length (timers w) + size (_entries w))%nat.
Proof.
  intros w.
  assert (H1 : (start w).1 = Ok ()) by (vm_compute; reflexivity).
  pose proof (returned_eta (start w) () H1) as H.
  destruct (start_schedules_every_entry w (start w).2 H) as (Hr & Hlen & _).
  split; [exact H|]. split; [exact Hr | exact Hlen].
Defined.

(** C10. When the scheduler is not running, [pause()] returns without
    any effect: the entries, the running flag and the timers are as they
    were, and no exception is raised, also for entries without a timer
    handle. *)
Theorem pause_when_not_running (w : World) :
  running w = false → pause w = (Ok (), w).
Proof.
  intros Hr. unfold pause, bind, get. by rewrite Hr.
Qed.

Lemma pause_when_not_running_witness :
  let w := world0 {[ "Test Job" := TestEntry ]} in
  running w = false ∧
  _timer <$> _entries w !! "Test Job" = Some None ∧
  pause w = (Ok (), w).
Proof.
  intros w. split; [reflexivity|]. split; [vm_compute; reflexivity|].
  exact (pause_when_not_running w eq_refl).
Defined.

(** * Startup establishes what the wrapper relies on *)

Lemma startup_unique_index (w : World) :
  dupKeys (docs (_collection w)) = false →
  uniqueIndex (_collection (startup w).2) = true ∧
  docs (_collection (startup w).2) = docs (_collection w) ∧
  nextId (_collection (startup w).2) = nextId (_collection w).
Proof.
  intros Hd.
  unfold startup, bind, try_catch, get, modify, createIndexM, log, ret. simpl.
  unfold createIndexAsync. rewrite Hd.
  destruct (uniqueIndex (_collection w)) eqn:Hu; simpl;
    destruct (collectionTTL (options w)) as [ttl|]; simpl; try done;
    destruct (ttl =? 0); simpl; try done;
    destruct (minTTL <? ttl); simpl; try done;
    destruct (ttlIndex (_collection w)) as [m|]; simpl; try done;
    destruct (m =? ttl); simpl; done.
Qed.

(** * The logger *)

(** With [options.log === false] at creation the logger is a no-op... *)
Lemma emitted_when_disabled (atCreation : Options) (w : World) :
  log_opt atCreation = false →
  emitted atCreation w = map (λ _, Silent) (logged w).
Proof.
  intros H. unfold emitted, createLogger. by rewrite H.
Qed.

(** ... and otherwise every call reaches the custom logger, tagged, or
    the console, prefixed. *)
Lemma emitted_when_enabled (atCreation : Options) (w : World) :
  log_opt atCreation = true →
  emitted atCreation w =
    map (λ c, if logger (options w)
              then ToLogger (level c) (message c) "SyncedCron"
              else ToConsole (level c) (Txt "SyncedCron" :: Txt ": " :: message c))
        (logged w).
Proof.
  intros H. unfold emitted, createLogger. by rewrite H.
Qed.

(** * The tests of the repository, replayed on the model *)

(** "Syncing works": two runs for one date, one record, result ['ran'],
    same [_id] before and after the second run. *)
Example syncing_works :
  let w := (startup (world0 {[ "Test Job" := TestEntry ]})).2 in
  let w1 := (_entryWrapper TestEntry 1000001 w).2 in
  let w2 := (_entryWrapper TestEntry 1000001 w1).2 in
  length (docs (_collection w1)) = 1%nat ∧
  map Doc.result (docs (_collection w1)) = [Some (VStr "ran")] ∧
  length (docs (_collection w2)) = 1%nat ∧
  map Doc._id (docs (_collection w2)) = map Doc._id (docs (_collection w1)).
Proof. vm_compute. repeat split; reflexivity. Qed.

(** "Exceptions work": [result] undefined, [error] holds the stack. *)
Example exceptions_work :
  let w := (startup (world0 {[ "Test Job" := FailingEntry ]})).2 in
  let w1 := (_entryWrapper FailingEntry 1000001 w).2 in
  map (λ r, (Doc.result r, Doc.error r)) (docs (_collection w1)) =
    [(None, Some (VStr "Error: Haha, gotcha!"))].
Proof. vm_compute. reflexivity. Qed.

(** "Do not persist when flag is set to false": no record, and without
    persistence two runs for one date are two executions. *)
Example do_not_persist :
  let entry := {| name := "Test Job"; schedule := everyMs 60000;
                  job := λ _ _, Returns (VStr "ran"); persist := false;
                  _timer := None |} in
  let w := (startup (world0 {[ "Test Job" := entry ]})).2 in
  let w1 := (_entryWrapper entry 1000001 w).2 in
  let w2 := (_entryWrapper entry 1000001 w1).2 in
  docs (_collection w2) = [] ∧
  jobCalls w2 = [(1000000, "Test Job"); (1000000, "Test Job")].
Proof. vm_compute. split; reflexivity. Qed.

(** "SyncedCron.pause works": entries are kept, the flag follows. *)
Example pause_works :
  let w := world0 {[ "Test Job" := TestEntry ]} in
  let w1 := (start w).2 in
  let w2 := (pause w1).2 in
  let w3 := (start w2).2 in
  (size (_entries w1), running w1) = (1%nat, true) ∧
  (size (_entries w2), running w2) = (1%nat, false) ∧
  (size (_entries w3), running w3) = (1%nat, true) ∧
  map done (timers w3) = [true; false].
Proof. vm_compute. repeat split; reflexivity. Qed.

(** * Further properties: the timer *)

(** X1. The scheduling step raises in exactly one situation: the
    occurrence query returns a single occurrence and it is less than
    1000 ms away. What it raises then is the TypeError of
    [next[1].getTime()]. *)
Theorem scheduling_step_raises_iff (now : Z) (next : list Z) :
  (scheduleTimeout now next = Throw getTimeOfUndefined ↔
   ∃ n0, next = [n0] ∧ n0 - now < 1000) ∧
  (∀ e, scheduleTimeout now next = Throw e → e = getTimeOfUndefined).
Proof.
  assert (Hchar : ∀ e, scheduleTimeout now next = Throw e →
                       e = getTimeOfUndefined ∧ ∃ n0, next = [n0] ∧ n0 - now < 1000).
  { intros e. unfold scheduleTimeout, pickOccurrence.
    destruct next as [|n0 [|n1 rest]]; simpl; try discriminate.
    - destruct (Z.ltb_spec (n0 - now) 1000); [|discriminate].
      intros [= <-]. eauto.
    - destruct (n0 - now <? 1000); discriminate. }
  split; [split|].
  - intros H. by apply Hchar in H as [_ H].
  - intros (n0 & -> & Hd). by apply scheduleTimeout_missing_second.
  - intros e H. by apply Hchar in H as [H _].
Qed.

(** X2. Whenever the scheduling step sets a timeout, its delay is at
    most 2147483647 ms. A timeout that fires the callback waits exactly
    until the occurrence it carries, which is the first occurrence of the
    query if that is at least 1000 ms away and the second one otherwise;
    a re-evaluation waits exactly 2147483647 ms. *)
Theorem armed_delay_bounds (now : Z) (next : list Z) (delay : Z) (cb : TimerCallback) :
  scheduleTimeout now next = Ok (Some (delay, cb)) →
  delay ≤ maxDelay ∧
  match cb with
  | Fire intendedAt =>
      delay = intendedAt - now ∧ delay < maxDelay ∧
      ((next !! 0%nat = Some intendedAt ∧ 1000 ≤ delay) ∨
       (next !! 1%nat = Some intendedAt ∧
        ∃ n0, next !! 0%nat = Some n0 ∧ n0 - now < 1000))
  | Reevaluate => delay = maxDelay
  end.
Proof.
  unfold scheduleTimeout, pickOccurrence, arm, maxDelay.
  destruct next as [|n0 rest]; simpl; [discriminate|].
  destruct (Z.ltb_spec (n0 - now) 1000) as [Hlt|Hge].
  - destruct rest as [|n1 rest]; simpl; [discriminate|].
    destruct (Z.ltb_spec (n1 - now) 2147483647); intros [= <- <-].
    + split; [lia|]. split; [done|]. split; [done|]. right. eauto.
    + split; [lia | done].
  - destruct (Z.ltb_spec (n0 - now) 2147483647); intros [= <- <-].
    + split; [lia|]. split; [done|]. split; [done|]. by left.
    + split; [lia | done].
Qed.

Lemma armed_delay_bounds_witness :
  scheduleTimeout 1000000 [1000500; 1060500] = Ok (Some (60500, Fire 1060500)) ∧
  60500 ≤ maxDelay.
Proof.
  split; [reflexivity|].
  exact (proj1 (armed_delay_bounds 1000000 [1000500; 1060500] 60500 (Fire 1060500)
                  eq_refl)).
Defined.

Lemma clear_lookup id w :
  timers (clear id w).2 !! id =
    (λ iv, {| fn := fn iv; sched := sched iv; done := true; t := None |})
      <$> timers w !! id.
Proof. unfold clear, modify. simpl. apply list_lookup_alter_eq. Qed.

(** X3. Cancelling stops the chain: after [clear()] of an interval's
    handle, the elapsing of its timeout does nothing at all, for any
    handle; and [clear()] is idempotent. *)
Theorem cleared_interval_never_fires (w : World) (id : nat) :
  timeoutFires id (clear id w).2 = (Ok (), (clear id w).2) ∧
  clear id (clear id w).2 = (Ok (), (clear id w).2).
Proof.
  split.
  - unfold timeoutFires, bind at 1, get. cbn [fst snd].
    rewrite clear_lookup. by destruct (timers w !! id).
  - unfold clear, modify. cbn [fst snd timers setTimers]. f_equal.
    unfold setTimers. cbn. f_equal.
    rewrite list_alter_alter_eq. by apply list_alter_ext.
Qed.

Lemma fired_frame id w j :
  j ≠ id →
  timers (fired id w) !! j = timers w !! j.
Proof.
  intros Hne. unfold fired, setPending, modify. simpl.
  by apply list_lookup_alter_ne.
Qed.

Lemma rearm_timers_frame id s w j :
  j ≠ id →
  timers (rearm id s w).2 !! j = timers w !! j.
Proof.
  intros Hne.
  unfold rearm, _laterSetTimeout, bind, Date_now, liftRes, setPending, modify.
  simpl. destruct (scheduleTimeout _ _); simpl; [|done].
  by apply list_lookup_alter_ne.
Qed.

Lemma timeoutFires_fire_eq id w iv delay intendedAt :
  timers w !! id = Some iv →
  t iv = Some (delay, Fire intendedAt) →
  done iv = false →
  timeoutFires id w =
    rearm id (sched iv) (_entryWrapper (fn iv) intendedAt (fired id w)).2.
Proof.
  intros Hiv Ht Hdone.
  rewrite (timeoutFires_fire id w iv delay intendedAt Hiv Ht Hdone).
  unfold bind at 1, try_catch, bind at 1.
  pose proof (wrapper_returns (fn iv) intendedAt (fired id w)) as Hret.
  destruct (_entryWrapper (fn iv) intendedAt (fired id w)) as [r w1].
  simpl in Hret. by subst r.
Qed.

(** X4. What a fire itself writes. The code run when one interval's
    timeout elapses (the wrapper with its accesses to the collection and
    its calls to [log], then the rescheduling) writes to the timer table
    at its own handle only: every other timer, the registry and the
    running flag are as they were. Job functions are functions of their
    two arguments here; a job or a logger that itself calls
    [SyncedCron.stop] or [SyncedCron.remove] is outside this statement. *)
Theorem fire_touches_only_its_timer (w : World) (id j : nat) :
  j ≠ id →
  timers (timeoutFires id w).2 !! j = timers w !! j ∧
  _entries (timeoutFires id w).2 = _entries w ∧
  running (timeoutFires id w).2 = running w.
Proof.
  intros Hne.
  destruct (timers w !! id) as [iv|] eqn:Hiv; cycle 1.
  { unfold timeoutFires, bind, get. simpl. by rewrite Hiv. }
  destruct (t iv) as [[delay cb]|] eqn:Ht; cycle 1.
  { unfold timeoutFires, bind, get. simpl. by rewrite Hiv, Ht. }
  destruct cb as [intendedAt|].
  - destruct (done iv) eqn:Hdone.
    + unfold timeoutFires, bind, get, modify. simpl. rewrite Hiv, Ht, Hdone.
      simpl. split; [by apply fired_frame | done].
    + rewrite (timeoutFires_fire_eq id w iv delay intendedAt Hiv Ht Hdone).
      destruct (rearm_frame id (sched iv)
                  (_entryWrapper (fn iv) intendedAt (fired id w)).2)
        as (_ & _ & _ & He & Hr).
      destruct (wrapper_frame (fn iv) intendedAt (fired id w))
        as (Hwt & Hwe & Hwr & _).
      rewrite rearm_timers_frame by done. rewrite Hwt, He, Hr, Hwe, Hwr.
      split; [by apply fired_frame | done].
  - rewrite (timeoutFires_reevaluate id w iv delay Hiv Ht).
    destruct (rearm_frame id (sched iv) (fired id w)) as (_ & _ & _ & He & Hr).
    rewrite rearm_timers_frame by done. rewrite He, Hr.
    split; [by apply fired_frame | done].
Qed.

Lemma fire_touches_only_its_timer_witness :
  let w := (start (world0 {[ "Test Job" := TestEntry ]})).2 in
  1%nat ≠ 0%nat ∧ _entries (timeoutFires 0 w).2 = _entries w.
Proof.
  intros w. split; [lia|].
  exact (proj1 (proj2 (fire_touches_only_its_timer w 0 1 ltac:(lia)))).
Defined.

(** * Further properties: the execution wrapper *)

Lemma held_updateAsync at_ nm id m s :
  held at_ nm (updateAsync id m s) = held at_ nm s.
Proof. unfold held. simpl. apply existsb_updateFirst. Qed.

Lemma keyCount_updateAsync at_ nm id m s :
  keyCount at_ nm (updateAsync id m s) = keyCount at_ nm s.
Proof. unfold keyCount. simpl. apply keyFilter_updateFirst. Qed.

(** What one call of a persisting entry does to the collection and to the
    record of job calls, with the unique index in place. *)
Lemma persisting_call entry d w :
  persist entry = true →
  uniqueIndex (_collection w) = true →
  let at_ := setMilliseconds0 d in
  let w1 := (_entryWrapper entry d w).2 in
  uniqueIndex (_collection w1) = true ∧
  held at_ (name entry) (_collection w1) = true ∧
  (∀ a n, held a n (_collection w) = true → held a n (_collection w1) = true) ∧
  (∀ a n, held a n (_collection w1) = true →
          held a n (_collection w) = true ∨ (a, n) = (at_, name entry)) ∧
  ((held at_ (name entry) (_collection w) = true ∧ jobCalls w1 = jobCalls w) ∨
   (held at_ (name entry) (_collection w) = false ∧
    jobCalls w1 = jobCalls w ++ [(at_, name entry)])).
Proof.
  intros Hp Hu at_ w1.
  destruct (key_held_after entry d w Hp Hu) as [Hu1 Hh1].
  split; [exact Hu1|]. split; [exact Hh1|].
  unfold w1. destruct (held at_ (name entry) (_collection w)) eqn:Hh.
  - assert (Ht : taken at_ (name entry) (_collection w) = true)
      by (unfold taken; by rewrite Hu, Hh).
    rewrite wrapper_skip by done. simpl. split_and!; auto.
  - assert (Ht : taken at_ (name entry) (_collection w) = false)
      by by apply taken_of_held.
    rewrite wrapper_run_persist by done. cbn [snd _collection jobCalls].
    rewrite insertAsync_free by done. cbn [snd]. split_and!.
    + intros a n Ha. rewrite held_updateAsync. unfold held in *. simpl.
      rewrite existsb_app, Ha. done.
    + intros a n. rewrite held_updateAsync. unfold held. simpl.
      rewrite existsb_app. simpl. rewrite orb_false_r.
      intros [Ha|Ha]%orb_true_iff; [by left|right].
      unfold hasKey in Ha. simpl in Ha.
      apply andb_true_iff in Ha as [Ha Hn].
      apply Z.eqb_eq in Ha. apply String.eqb_eq in Hn. by subst.
    + right. done.
Qed.

Lemma admissionOk_call entry d w :
  persist entry = true →
  admissionOk w →
  admissionOk (_entryWrapper entry d w).2.
Proof.
  intros Hp (Hu & Hnd & Hheld).
  destruct (persisting_call entry d w Hp Hu) as (Hu1 & Hh1 & Hmono & _ & Hcalls).
  split; [exact Hu1|].
  destruct Hcalls as [[Hh Hj]|[Hh Hj]]; rewrite Hj.
  - split; [exact Hnd|]. intros a n Hin. apply Hmono. by apply Hheld.
  - split.
    + apply NoDup_app. split; [exact Hnd|]. split; [|apply NoDup_singleton].
      intros k Hk Hk'. apply list_elem_of_singleton in Hk'. subst k.
      apply Hheld in Hk. congruence.
    + intros a n [Hin|Hin]%elem_of_app.
      * apply Hmono. by apply Hheld.
      * apply list_elem_of_singleton in Hin. injection Hin as -> ->. exact Hh1.
Qed.

Lemma runAll_cons entry d calls w :
  runAll ((entry, d) :: calls) w = runAll calls (_entryWrapper entry d w).2.
Proof.
  simpl. unfold bind.
  pose proof (wrapper_returns entry d w) as Hret.
  destruct (_entryWrapper entry d w) as [r w1]. simpl in Hret. by subst r.
Qed.

(** X5. At most once per occurrence. With the unique index in place, on
    a world where every job call on record still has its claim in the
    collection and no occurrence was run twice, any sequence of calls of
    wrapped functions of persisting entries returns normally and keeps it
    so: no pair [(intendedAt, name)] is handed to a job function twice,
    and every occurrence that was called for ends up claimed, its job
    having run in this sequence unless its claim was there before. *)
Theorem at_most_once_per_occurrence (calls : list (Entry * Z)) (w : World) :
  Forall (λ c, persist c.1 = true) calls →
  admissionOk w →
  (runAll calls w).1 = Ok () ∧
  admissionOk (runAll calls w).2 ∧
  NoDup (jobCalls (runAll calls w).2) ∧
  (∀ c, c ∈ calls →
     held (occurrence c).1 (occurrence c).2 (_collection (runAll calls w).2) = true ∧
     (occurrence c ∈ jobCalls (runAll calls w).2 ∨
      held (occurrence c).1 (occurrence c).2 (_collection w) = true)).
Proof.
  revert w. induction calls as [|[entry d] calls IH]; intros w Hall Hok.
  - simpl. split; [done|]. split; [done|]. split; [apply Hok|].
    intros c Hc. by apply elem_of_nil in Hc.
  - apply Forall_cons in Hall as [Hp Hall]. simpl in Hp.
    rewrite runAll_cons.
    pose proof (admissionOk_call entry d w Hp Hok) as Hok1.
    destruct (IH _ Hall Hok1) as (Hret & Hokn & Hnd & Hcalls).
    split; [exact Hret|]. split; [exact Hokn|]. split; [exact Hnd|].
    destruct Hok as (Hu & _ & _).
    destruct (persisting_call entry d w Hp Hu) as (Hu1 & Hh1 & Hmono & Hinv & Hj).
    assert (Hgrow : ∀ calls' w', Forall (λ c, persist c.1 = true) calls' →
              uniqueIndex (_collection w') = true →
              (∀ a n, held a n (_collection w') = true →
                      held a n (_collection (runAll calls' w').2) = true) ∧
              (∀ k, k ∈ jobCalls w' → k ∈ jobCalls (runAll calls' w').2)).
    { clear. induction calls' as [|[e' d'] calls' IH']; intros w' Hall' Hu'.
      - simpl. auto.
      - apply Forall_cons in Hall' as [Hp' Hall']. simpl in Hp'.
        rewrite runAll_cons.
        destruct (persisting_call e' d' w' Hp' Hu') as (Hu1 & _ & Hmono & _ & Hj).
        destruct (IH' _ Hall' Hu1) as [IHh IHj]. split.
        + intros a n Ha. apply IHh. by apply Hmono.
        + intros k Hk. apply IHj.
          destruct Hj as [[_ ->]|[_ ->]]; [done|]. apply elem_of_app. by left. }
    destruct (Hgrow calls _ Hall Hu1) as [Hgh Hgj].
    intros c [->|Hc]%elem_of_cons.
    + unfold occurrence. simpl. split; [by apply Hgh|].
      destruct Hj as [[Hh _]|[_ Hj]]; [by right|left].
      apply Hgj. rewrite Hj. apply elem_of_app. right. by apply list_elem_of_singleton.
    + destruct (Hcalls c Hc) as [Hheld [Hin|Hbefore]].
      * split; [exact Hheld | by left].
      * split; [exact Hheld|].
        destruct (occurrence c) as [a n] eqn:Hocc. simpl in *.
        destruct (Hinv a n Hbefore) as [Hw|Heq]; [by right|].
        injection Heq as -> ->.
        destruct Hj as [[Hh _]|[_ Hj]]; [by right|left].
        apply Hgj. rewrite Hj. apply elem_of_app. right.
        by apply list_elem_of_singleton.
Qed.

Lemma at_most_once_per_occurrence_witness :
  let w := (startup (world0 ∅)).2 in
  let calls := [(TestEntry, 5000777); (FailingEntry, 5000001); (TestEntry, 5060000)] in
  admissionOk w ∧
  jobCalls (runAll calls w).2 = [(5000000, "Test Job"); (5060000, "Test Job")] ∧
  NoDup (jobCalls (runAll calls w).2).
Proof.
  intros w calls.
  assert (Hok : admissionOk w).
  { split; [reflexivity|]. split; [apply NoDup_nil_2|].
    intros a n Hin. by apply elem_of_nil in Hin. }
  split; [exact Hok|]. split; [vm_compute; reflexivity|].
  refine (proj1 (proj2 (proj2 (at_most_once_per_occurrence calls w _ Hok)))).
  repeat constructor.
Defined.

Lemma keyCount_after_insert at_ nm started m s :
  taken at_ nm s = false →
  keyCount at_ nm (updateAsync (nextId s) m (insertAsync at_ nm started s).2) =
    S (keyCount at_ nm s).
Proof.
  intros Ht. rewrite keyCount_updateAsync, insertAsync_free by done.
  unfold keyCount. cbn [docs snd].
  rewrite filter_app, length_app, filter_cons, filter_nil.
  rewrite decide_True by by apply hasKey_refl. simpl. lia.
Qed.

(** X6. The deduplication rests on the unique index alone: on a
    collection without it (its creation failed at startup), two calls of
    the wrapped function of a persisting entry for the same date both
    insert a record and both run the job. *)
Theorem without_unique_index_runs_twice (entry : Entry) (d : Z) (w : World) :
  persist entry = true →
  uniqueIndex (_collection w) = false →
  let at_ := setMilliseconds0 d in
  let w2 := (_entryWrapper entry d (_entryWrapper entry d w).2).2 in
  jobCalls w2 = jobCalls w ++ [(at_, name entry); (at_, name entry)] ∧
  keyCount at_ (name entry) (_collection w2) =
    S (S (keyCount at_ (name entry) (_collection w))) ∧
  length (docs (_collection w2)) = S (S (length (docs (_collection w)))).
Proof.
  intros Hp Hu at_ w2. subst w2.
  assert (Ht : taken at_ (name entry) (_collection w) = false)
    by (unfold taken; by rewrite Hu).
  set (w1 := (_entryWrapper entry d w).2).
  assert (Hw1 : w1 = (_entryWrapper entry d w).2) by done.
  rewrite wrapper_run_persist in Hw1 by done. cbn [snd] in Hw1.
  assert (Hu1 : uniqueIndex (_collection w1) = false).
  { rewrite Hw1. cbn [_collection]. rewrite insertAsync_free by done. exact Hu. }
  assert (Ht1 : taken at_ (name entry) (_collection w1) = false)
    by (unfold taken; by rewrite Hu1).
  rewrite (wrapper_run_persist entry d w1) by done.
  cbn [snd _collection jobCalls]. fold at_.
  rewrite (keyCount_after_insert at_ (name entry) _ _ (_collection w1)) by done.
  rewrite (insertAsync_free at_ (name entry) _ (_collection w1)) by done.
  cbn [snd docs updateAsync]. rewrite length_updateFirst, length_app.
  rewrite Hw1. cbn [_collection jobCalls]. fold at_.
  rewrite keyCount_after_insert by done.
  rewrite insertAsync_free by done.
  cbn [snd docs updateAsync]. rewrite length_updateFirst, length_app.
  rewrite <- app_assoc. simpl. split; [done|]. split; [done | lia].
Qed.

Lemma without_unique_index_runs_twice_witness :
  let w := world0 ∅ in
  persist TestEntry = true ∧
  uniqueIndex (_collection w) = false ∧
  length (docs (_collection
    (_entryWrapper TestEntry 5000777 (_entryWrapper TestEntry 5000777 w).2).2)) = 2%nat.
Proof.
  intros w. split; [reflexivity|]. split; [reflexivity|].
  exact (proj2 (proj2 (without_unique_index_runs_twice TestEntry 5000777 w
                         eq_refl eq_refl))).
Defined.

(** X7. An entry with [persist] false is never deduplicated: every call
    of its wrapped function runs the job, and neither the collection nor
    the clock is touched by the wrapper. *)
Theorem volatile_entry_runs_every_time (entry : Entry) (d1 d2 : Z) (w : World) :
  persist entry = false →
  let w2 := (_entryWrapper entry d2 (_entryWrapper entry d1 w).2).2 in
  jobCalls w2 =
    jobCalls w ++ [(setMilliseconds0 d1, name entry); (setMilliseconds0 d2, name entry)] ∧
  _collection w2 = _collection w ∧
  ticks w2 = ticks w.
Proof.
  intros Hp w2. subst w2.
  rewrite (wrapper_run_volatile entry d1 w) by done. cbn [snd].
  rewrite wrapper_run_volatile by done. cbn [snd jobCalls _collection ticks].
  by rewrite <- app_assoc.
Qed.

Lemma volatile_entry_runs_every_time_witness :
  let entry := {| name := "Test Job"; schedule := everyMs 60000;
                  job := λ _ _, Returns (VStr "ran"); persist := false;
                  _timer := None |} in
  let w := (startup (world0 ∅)).2 in
  persist entry = false ∧
  _collection (_entryWrapper entry 5000777 (_entryWrapper entry 5000777 w).2).2 =
    _collection w.
Proof.
  intros entry w. split; [reflexivity|].
  exact (proj1 (proj2 (volatile_entry_runs_every_time entry 5000777 5000777 w eq_refl))).
Defined.

(** X8. Claims are per occurrence: with the unique index in place, calls
    for two occurrences that differ in the second or in the job name, both
    unclaimed, both run their job, whatever the order of their keys. *)
Theorem distinct_occurrences_do_not_conflict
    (entry1 entry2 : Entry) (d1 d2 : Z) (w : World) :
  persist entry1 = true → persist entry2 = true →
  uniqueIndex (_collection w) = true →
  occurrence (entry1, d1) ≠ occurrence (entry2, d2) →
  held (setMilliseconds0 d1) (name entry1) (_collection w) = false →
  held (setMilliseconds0 d2) (name entry2) (_collection w) = false →
  let w2 := (_entryWrapper entry2 d2 (_entryWrapper entry1 d1 w).2).2 in
  jobCalls w2 =
    jobCalls w ++ [occurrence (entry1, d1); occurrence (entry2, d2)] ∧
  length (docs (_collection w2)) = S (S (length (docs (_collection w)))).
Proof.
  intros Hp1 Hp2 Hu Hne Hh1 Hh2 w2. subst w2.
  destruct (persisting_call entry1 d1 w Hp1 Hu) as (Hu1 & _ & _ & Hinv & Hj1).
  set (w1 := (_entryWrapper entry1 d1 w).2) in *.
  destruct Hj1 as [[Hh _]|[_ Hj1]]; [congruence|].
  assert (Hh2' : held (setMilliseconds0 d2) (name entry2) (_collection w1) = false).
  { destruct (held _ _ (_collection w1)) eqn:Hh; [|done].
    destruct (Hinv _ _ Hh) as [Hw|Heq]; [congruence|].
    exfalso. apply Hne. unfold occurrence. simpl. by rewrite Heq. }
  destruct (persisting_call entry2 d2 w1 Hp2 Hu1) as (_ & _ & _ & _ & Hj2).
  destruct Hj2 as [[Hh _]|[_ Hj2]]; [congruence|].
  rewrite Hj2, Hj1, <- app_assoc. split; [done|].
  rewrite (wrapper_run_persist entry2 d2 w1) by (try done; by apply taken_of_held).
  cbn [snd _collection].
  rewrite insertAsync_free by by apply taken_of_held.
  cbn [snd docs updateAsync]. rewrite length_updateFirst, length_app.
  unfold w1. rewrite (wrapper_run_persist entry1 d1 w) by (try done; by apply taken_of_held).
  cbn [snd _collection].
  rewrite insertAsync_free by by apply taken_of_held.
  cbn [snd docs updateAsync]. rewrite length_updateFirst, length_app. simpl. lia.
Qed.

Lemma distinct_occurrences_do_not_conflict_witness :
  let w := (startup (world0 ∅)).2 in
  occurrence (TestEntry, 5000777) ≠ occurrence (TestEntry, 5001000) ∧
  jobCalls (_entryWrapper TestEntry 5001000 (_entryWrapper TestEntry 5000777 w).2).2 =
    [(5000000, "Test Job"); (5001000, "Test Job")].
Proof.
  intros w.
  assert (Hne : occurrence (TestEntry, 5000777) ≠ occurrence (TestEntry, 5001000))
    by discriminate.
  split; [exact Hne|].
  exact (proj1 (distinct_occurrences_do_not_conflict TestEntry TestEntry
                  5000777 5001000 w eq_refl eq_refl eq_refl Hne eq_refl eq_refl)).
Defined.

(** X9. Record identities and shapes over any run: from a well-formed
    ledger whose [_id]s are distinct, any sequence of calls of wrapped
    functions keeps the ledger well formed (every record is running, with
    nothing set, or finished, with [finishedAt] and at most one of
    [result] and [error]) and the [_id]s distinct, and it leaves every
    record it found in place and unchanged: the collection after the run
    is the collection before it followed by the new records, at most one
    for each call. *)
Theorem record_ids_stay_unique (calls : list (Entry * Z)) (w : World) :
  ledgerOk (_collection w) = true →
  NoDup (map Doc._id (docs (_collection w))) →
  ledgerOk (_collection (runAll calls w).2) = true ∧
  NoDup (map Doc._id (docs (_collection (runAll calls w).2))) ∧
  ∃ added, docs (_collection (runAll calls w).2) = docs (_collection w) ++ added ∧
           (length added ≤ length calls)%nat.
Proof.
  revert w. induction calls as [|[entry d] calls IH]; intros w Hok Hnd.
  - simpl. split_and!; [done..|]. exists []. rewrite app_nil_r.
    simpl. split; [done | lia].
  - rewrite runAll_cons.
    pose proof (ledgerOk_preserved entry d w Hok) as Hok1.
    assert (Hstep : NoDup (map Doc._id (docs (_collection (_entryWrapper entry d w).2))) ∧
                    ∃ new, docs (_collection (_entryWrapper entry d w).2) =
                             docs (_collection w) ++ new ∧
                           (length new ≤ 1)%nat).
    { destruct (wrapper_cases entry d w) as [[Hp Ht]|[[Hp Ht]|Hp]].
      - rewrite wrapper_skip by done. simpl. split; [done|].
        exists []. rewrite app_nil_r. simpl. split; [done | lia].
      - destruct (run_record entry d w Hok Hp Ht) as [Hdocs _].
        split; [|eexists; split; [exact Hdocs | simpl; lia]].
        rewrite Hdocs, map_app. simpl.
        apply NoDup_app. split; [exact Hnd|]. split; [|apply NoDup_singleton].
        intros i Hi Hi'. apply list_elem_of_singleton in Hi'. subst i.
        apply list_elem_of_fmap in Hi as (r & Hid & Hr).
        unfold ledgerOk in Hok. rewrite forallb_forall in Hok.
        apply list_elem_of_In in Hr. specialize (Hok r Hr).
        apply andb_true_iff in Hok as [Hlt _]. apply Nat.ltb_lt in Hlt.
        destruct (job entry _ _); simpl in Hid; lia.
      - rewrite wrapper_run_volatile by done. simpl. split; [done|].
        exists []. rewrite app_nil_r. simpl. split; [done | lia]. }
    destruct Hstep as (Hnd1 & new & Hnew & Hlen1).
    destruct (IH _ Hok1 Hnd1) as (Hokn & Hndn & added & Hadded & Hlen).
    split; [exact Hokn|]. split; [exact Hndn|].
    exists (new ++ added). split.
    + by rewrite Hadded, Hnew, app_assoc.
    + rewrite length_app. simpl. lia.
Qed.

Lemma record_ids_stay_unique_witness :
  let w := (startup (world0 ∅)).2 in
  let calls := [(TestEntry, 5000777); (FailingEntry, 5060001);
                (ReturnsNothing, 5120000); (TestEntry, 5000999)] in
  ledgerOk (_collection w) = true ∧
  NoDup (map Doc._id (docs (_collection w))) ∧
  ledgerOk (_collection (runAll calls w).2) = true ∧
  NoDup (map Doc._id (docs (_collection (runAll calls w).2))).
Proof.
  intros w calls.
  assert (Hnd : NoDup (map Doc._id (docs (_collection w)))) by apply NoDup_nil_2.
  destruct (record_ids_stay_unique calls w eq_refl Hnd) as (Hok & Hnd' & _).
  split; [reflexivity|]. split; [exact Hnd|]. split; [exact Hok | exact Hnd'].
Defined.

(** * Further properties: registering *)

Lemma getEntry_own k es entry : es !! k = Some entry → getEntry k es = Own entry.
Proof. intros H. unfold getEntry. by rewrite H. Qed.

Lemma getEntry_missing k es :
  es !! k = None → inherited k = false → getEntry k es = Missing.
Proof. intros H Hi. unfold getEntry. by rewrite H, Hi. Qed.

Lemma getEntry_inherited k es :
  es !! k = None → inherited k = true → getEntry k es = Inherited k.
Proof. intros H Hi. unfold getEntry. by rewrite H, Hi. Qed.

(** [add] on an object that passes the checks, by what the registry
    holds under its name. *)
Lemma add_valid r nm sch jb w :
  raw_name r = VStr nm → raw_schedule r = Some sch → raw_job r = Some jb →
  raw_persist r = VUndefined ∨ (∃ b, raw_persist r = VBool b) →
  add r w =
    match getEntry nm (_entries w) with
    | Missing =>
        let w1 := setEntries (<[nm := registered r nm sch jb]> (_entries w)) w in
        if running w then scheduleEntry nm (registered r nm sch jb) w1
        else (Ok (), w1)
    | _ => (Ok (), w)
    end.
Proof.
  intros Hn Hs Hj Hp. unfold add. rewrite Hn, Hs, Hj.
  unfold checkString, checkFunction, checkPersist, registered.
  destruct Hp as [Hp|[b Hp]]; rewrite Hp;
    unfold bind, ret, get, modify; simpl;
    destruct (getEntry nm (_entries w)); try done;
    by destruct (running w).
Qed.

Lemma scheduleEntry_entries k entry w :
  is_Some (_entries (scheduleEntry k entry w).2 !! k) ∨
  _entries (scheduleEntry k entry w).2 = _entries w.
Proof.
  unfold scheduleEntry, _laterSetInterval, _laterSetTimeout, liftRes, log,
    modify, get, Date_now, bind, ret. simpl.
  destruct (scheduleTimeout _ _) as [p|e]; simpl; [left|by right].
  rewrite lookup_insert_eq. eauto.
Qed.

(** X10. The first registration of a name wins. Once [add] has been
    called with an object that passes the checks (whether or not the
    scheduler is running, and even when scheduling the new entry raised),
    a further [add] under the same name, with whatever schedule and job,
    returns without changing anything: no replacement, no timer, no log. *)
Theorem add_keeps_first_registration
    (r1 r2 : RawEntry) (nm : string) (sch1 sch2 : Schedule)
    (jb1 jb2 : Z → string → JobResult) (w : World) :
  raw_name r1 = VStr nm → raw_schedule r1 = Some sch1 → raw_job r1 = Some jb1 →
  raw_persist r1 = VUndefined ∨ (∃ b, raw_persist r1 = VBool b) →
  raw_name r2 = VStr nm → raw_schedule r2 = Some sch2 → raw_job r2 = Some jb2 →
  raw_persist r2 = VUndefined ∨ (∃ b, raw_persist r2 = VBool b) →
  inherited nm = false →
  is_Some (_entries (add r1 w).2 !! nm) ∧
  add r2 (add r1 w).2 = (Ok (), (add r1 w).2).
Proof.
  intros Hn1 Hs1 Hj1 Hp1 Hn2 Hs2 Hj2 Hp2 Hinh.
  assert (Hreg : is_Some (_entries (add r1 w).2 !! nm)).
  { rewrite (add_valid r1 nm sch1 jb1 w) by done.
    destruct (_entries w !! nm) as [e0|] eqn:H0.
    - rewrite (getEntry_own _ _ _ H0). simpl. rewrite H0. eauto.
    - rewrite (getEntry_missing _ _ H0 Hinh). cbv zeta.
      destruct (running w).
      + destruct (scheduleEntry_entries nm (registered r1 nm sch1 jb1)
                    (setEntries (<[nm:=registered r1 nm sch1 jb1]> (_entries w)) w))
          as [H|H]; [exact H|].
        rewrite H. simpl. rewrite lookup_insert_eq. eauto.
      + simpl. rewrite lookup_insert_eq. eauto. }
  split; [exact Hreg|].
  rewrite (add_valid r2 nm sch2 jb2) by done.
  destruct Hreg as [e He]. by rewrite (getEntry_own _ _ _ He).
Qed.

Lemma add_keeps_first_registration_witness :
  let w := world0 ∅ in
  let w1 := (add (toRaw TestEntry) w).2 in
  inherited "Test Job" = false ∧
  add (toRaw FailingEntry) w1 = (Ok (), w1).
Proof.
  intros w w1. split; [reflexivity|].
  exact (proj2 (add_keeps_first_registration (toRaw TestEntry) (toRaw FailingEntry)
                  "Test Job" _ _ _ _ w eq_refl eq_refl eq_refl
                  (or_intror (ex_intro _ true eq_refl))
                  eq_refl eq_refl eq_refl
                  (or_intror (ex_intro _ true eq_refl)) eq_refl)).
Defined.

(** X11. A name that [Object.prototype] defines cannot be registered:
    [add] finds the inherited value under it and returns without
    registering, [nextScheduledAtDate] raises a TypeError on it, and
    [remove] logs a removal while the registry stays as it was. *)
Theorem inherited_names_are_not_jobs
    (r : RawEntry) (nm : string) (sch : Schedule) (jb : Z → string → JobResult)
    (w : World) :
  inherited nm = true →
  _entries w !! nm = None →
  raw_name r = VStr nm → raw_schedule r = Some sch → raw_job r = Some jb →
  raw_persist r = VUndefined ∨ (∃ b, raw_persist r = VBool b) →
  add r w = (Ok (), w) ∧
  nextScheduledAtDate nm w = (Throw scheduleOfUndefined, w) ∧
  (remove nm w).1 = Ok () ∧
  _entries (remove nm w).2 = _entries w ∧
  timers (remove nm w).2 = timers w ∧
  logged (remove nm w).2 =
    logged w ++ [{| level := info;
                    message := [Txt "Removed "; Quoted (inheritedName nm)] |}].
Proof.
  intros Hinh Hnone Hn Hs Hj Hp.
  pose proof (getEntry_inherited nm (_entries w) Hnone Hinh) as Hget.
  split.
  { rewrite (add_valid r nm sch jb w) by done. by rewrite Hget. }
  unfold nextScheduledAtDate, remove, bind, get, throw, log, modify. simpl.
  by rewrite Hget.
Qed.

Lemma inherited_names_are_not_jobs_witness :
  let r := {| raw_name := VStr "constructor"; raw_schedule := Some (everyMs 60000);
              raw_job := Some (λ _ _, Returns (VStr "ran"));
              raw_persist := VUndefined; raw_timer := None |} in
  inherited "constructor" = true ∧
  add r (world0 ∅) = (Ok (), world0 ∅).
Proof.
  intros r. split; [reflexivity|].
  exact (proj1 (inherited_names_are_not_jobs r "constructor" _ _ (world0 ∅)
                  eq_refl eq_refl eq_refl eq_refl eq_refl (or_introl eq_refl))).
Defined.

Lemma scheduleTimeout_only_TypeError now next e :
  scheduleTimeout now next = Throw e → e = getTimeOfUndefined.
Proof.
  unfold scheduleTimeout, pickOccurrence.
  destruct next as [|n0 [|n1 rest]]; simpl; try discriminate.
  - destruct (n0 - now <? 1000); [|discriminate]. by intros [= <-].
  - destruct (n0 - now <? 1000); discriminate.
Qed.

(** X12. Validation comes first: an object with a [name] that is no
    string, a [schedule] or [job] that is no function, or a [persist] that
    is neither undefined nor a boolean makes [add] raise a [Match.Error]
    and leave the world untouched; an object that passes never gets a
    [Match.Error]. *)
Theorem add_validates_first (r : RawEntry) (w : World) :
  (validRaw r = false →
   ∃ expected, add r w = (Throw (MatchError expected), w)) ∧
  (validRaw r = true →
   ∀ expected, (add r w).1 ≠ Throw (MatchError expected)).
Proof.
  unfold validRaw. split.
  - intros Hv. unfold add, checkString, checkFunction, checkPersist, bind, throw, ret.
    destruct (raw_name r); eauto.
    destruct (raw_schedule r); eauto.
    destruct (raw_job r); eauto.
    destruct (raw_persist r); eauto; discriminate.
  - intros Hv expected.
    destruct (raw_name r) as [| | | |nm|] eqn:Hn; try discriminate.
    destruct (raw_schedule r) as [sch|] eqn:Hs; try discriminate.
    destruct (raw_job r) as [jb|] eqn:Hj; try discriminate.
    assert (Hp : raw_persist r = VUndefined ∨ (∃ b, raw_persist r = VBool b)).
    { destruct (raw_persist r); try discriminate; eauto. }
    rewrite (add_valid r nm sch jb w) by done.
    destruct (getEntry nm (_entries w)); try discriminate.
    cbv zeta. destruct (running w); [|discriminate].
    set (w1 := setEntries _ w).
    unfold scheduleEntry, _laterSetInterval, _laterSetTimeout, liftRes, log,
      modify, get, Date_now, bind, ret. simpl.
    destruct (scheduleTimeout _ _) as [p|e] eqn:Hsched; simpl; [discriminate|].
    intros [= He]. apply scheduleTimeout_only_TypeError in Hsched.
    subst e. discriminate.
Qed.

(** X13. A late joiner is scheduled at once, an early one is not. For an
    object that passes the checks under a free name: when the scheduler
    is not running, [add] only stores the entry (no timer is created, the
    handle is whatever the object carried); when it is running and the
    scheduling step does not raise, [add] creates exactly one timer, live,
    at the end of the timer table, and the stored entry holds its
    handle. *)
Theorem add_schedules_iff_running
    (r : RawEntry) (nm : string) (sch : Schedule) (jb : Z → string → JobResult)
    (w : World) :
  raw_name r = VStr nm → raw_schedule r = Some sch → raw_job r = Some jb →
  raw_persist r = VUndefined ∨ (∃ b, raw_persist r = VBool b) →
  _entries w !! nm = None → inherited nm = false →
  (running w = false →
   add r w = (Ok (), setEntries (<[nm := registered r nm sch jb]> (_entries w)) w)) ∧
  (running w = true →
   (∃ p, scheduleTimeout (clock w (ticks w)) (sch 2%nat (clock w (ticks w))) = Ok p) →
   (add r w).1 = Ok () ∧
   running (add r w).2 = true ∧
   _entries (add r w).2 =
     <[nm := withTimer (length (timers w)) (registered r nm sch jb)]> (_entries w) ∧
   ∃ p, timers (add r w).2 =
        timers w ++ [{| fn := registered r nm sch jb; sched := sch;
                        done := false; t := p |}]).
Proof.
  intros Hn Hs Hj Hp Hnone Hinh.
  rewrite (add_valid r nm sch jb w) by done.
  rewrite (getEntry_missing _ _ Hnone Hinh). cbv zeta. split.
  - intros Hr. by rewrite Hr.
  - intros Hr [p Hsched]. rewrite Hr.
    unfold scheduleEntry, _laterSetInterval, _laterSetTimeout, liftRes, log,
      modify, get, Date_now, bind, ret. simpl.
    rewrite Hsched. simpl. rewrite insert_insert_eq. eauto.
Qed.

Lemma add_schedules_iff_running_witness :
  let w := world0 ∅ in
  _entries w !! "Test Job" = None ∧
  add (toRaw TestEntry) w =
    (Ok (), setEntries (<["Test Job" := registered (toRaw TestEntry) "Test Job"
                            (schedule TestEntry) (job TestEntry)]> (_entries w)) w).
Proof.
  intros w. split; [reflexivity|].
  exact (proj1 (add_schedules_iff_running (toRaw TestEntry) "Test Job" _ _ w
                  eq_refl eq_refl eq_refl (or_intror (ex_intro _ true eq_refl))
                  eq_refl eq_refl) eq_refl).
Defined.

(** * Further properties: removing, pausing, stopping *)

Section Cancelling.

Implicit Types (w : World) (ts : list Interval) (ids : list nat).

Lemma cancelled_idemp iv : cancelled (cancelled iv) = cancelled iv.
Proof. reflexivity. Qed.

Lemma clear_eq id w :
  clear id w = (Ok (), setTimers (alter cancelled id (timers w)) w).
Proof. reflexivity. Qed.

(** Timer tables after a series of [clear()]s. *)
Lemma cancel_many_lookup ids : ∀ ts j,
  foldl (λ ts id, alter cancelled id ts) ts ids !! j =
    if decide (j ∈ ids) then cancelled <$> ts !! j else ts !! j.
Proof.
  induction ids as [|id ids IH]; intros ts j; cbn [foldl].
  - rewrite decide_False; [done | apply not_elem_of_nil].
  - rewrite IH. destruct (decide (j = id)) as [->|Hne].
    + rewrite list_lookup_alter_eq.
      rewrite (decide_True (P := id ∈ id :: ids)) by apply list_elem_of_here.
      case_decide; [|done]. by destruct (ts !! id).
    + rewrite list_lookup_alter_ne by done.
      destruct (decide (j ∈ ids)) as [Hin|Hnin].
      * rewrite decide_True; [done | by apply list_elem_of_further].
      * rewrite decide_False; [done|].
        intros [?|?]%elem_of_cons; contradiction.
Qed.

Lemma cancel_many_length ids : ∀ ts,
  length (foldl (λ ts id, alter cancelled id ts) ts ids) = length ts.
Proof.
  induction ids as [|id ids IH]; intros ts; simpl; [done|].
  by rewrite IH, length_alter.
Qed.

(** [remove] of a registered name. *)
Lemma remove_own nm entry w :
  _entries w !! nm = Some entry →
  remove nm w =
    (Ok (),
     setLogged (logged w ++ [{| level := info;
                                message := [Txt "Removed "; Quoted (name entry)] |}])
       (setEntries (delete nm (_entries w))
          (setTimers (match _timer entry with
                      | Some id => alter cancelled id (timers w)
                      | None => timers w
                      end) w))).
Proof.
  intros Hown. unfold remove, bind at 1, get. cbn [fst snd].
  rewrite (getEntry_own _ _ _ Hown).
  unfold bind, modify, log, ret, clear. by destruct (_timer entry).
Qed.

Lemma remove_missing nm w :
  _entries w !! nm = None → inherited nm = false → remove nm w = (Ok (), w).
Proof.
  intros Hnone Hinh. unfold remove, bind, get. cbn [fst snd].
  by rewrite (getEntry_missing _ _ Hnone Hinh).
Qed.

(** The loop of [stop] over the names of a list of registered entries. *)
Lemma forEach_remove (l : list (string * Entry)) : ∀ w,
  NoDup l.*1 →
  (∀ k entry, (k, entry) ∈ l → _entries w !! k = Some entry) →
  (forEach remove l.*1 w).1 = Ok () ∧
  (∀ k, _entries (forEach remove l.*1 w).2 !! k =
        if decide (k ∈ l.*1) then None else _entries w !! k) ∧
  timers (forEach remove l.*1 w).2 =
    foldl (λ ts id, alter cancelled id ts) (timers w) (omap (λ ke, _timer ke.2) l) ∧
  running (forEach remove l.*1 w).2 = running w ∧
  _collection (forEach remove l.*1 w).2 = _collection w ∧
  jobCalls (forEach remove l.*1 w).2 = jobCalls w ∧
  length (logged (forEach remove l.*1 w).2) = (length (logged w) + length l)%nat.
Proof.
  induction l as [|[k0 e0] l IH]; intros w Hnd Hreg.
  - simpl. split_and!; first [done | lia].
  - apply NoDup_cons in Hnd as [Hk0 Hnd].
    assert (H0 : _entries w !! k0 = Some e0) by (apply Hreg; apply list_elem_of_here).
    cbn [fmap list_fmap forEach fst]. unfold bind at 1 2 3 4 5 6 7.
    rewrite (remove_own k0 e0 w H0).
    set (w1 := setLogged _ _).
    destruct (IH w1 Hnd) as (Hret & Hent & Htim & Hrun & Hcol & Hjob & Hlog).
    { intros k entry Hin. unfold w1. simpl.
      rewrite lookup_delete_ne; [apply Hreg; by apply list_elem_of_further|].
      intros Heq. apply Hk0. rewrite Heq. apply list_elem_of_fmap.
      by exists (k, entry). }
    split_and!.
    + exact Hret.
    + intros k. rewrite Hent. unfold w1. simpl.
      destruct (decide (k = k0)) as [->|Hne].
      * rewrite (decide_True (P := k0 ∈ k0 :: l.*1)) by apply list_elem_of_here.
        case_decide; [done | apply lookup_delete_eq].
      * rewrite lookup_delete_ne by done.
        destruct (decide (k ∈ l.*1)) as [Hin|Hnin].
        -- rewrite decide_True; [done | by apply list_elem_of_further].
        -- rewrite decide_False; [done|].
           intros [?|?]%elem_of_cons; contradiction.
    + rewrite Htim. unfold w1. simpl. by destruct (_timer e0).
    + by rewrite Hrun.
    + by rewrite Hcol.
    + by rewrite Hjob.
    + rewrite Hlog. unfold w1. simpl. rewrite length_app. simpl. lia.
Qed.

Lemma stop_spec w :
  (stop w).1 = Ok () ∧
  _entries (stop w).2 = ∅ ∧
  running (stop w).2 = false ∧
  (∀ j, timers (stop w).2 !! j =
        if decide (j ∈ handles (_entries w)) then cancelled <$> timers w !! j
        else timers w !! j) ∧
  length (timers (stop w).2) = length (timers w) ∧
  _collection (stop w).2 = _collection w ∧
  jobCalls (stop w).2 = jobCalls w ∧
  length (logged (stop w).2) = (length (logged w) + size (_entries w))%nat.
Proof.
  destruct (forEach_remove (map_to_list (_entries w)) w)
    as (Hret & Hent & Htim & Hrun & Hcol & Hjob & Hlog).
  { apply NoDup_fst_map_to_list. }
  { intros k entry Hin. by apply elem_of_map_to_list. }
  unfold stop, bind at 1, get. cbn [fst snd]. unfold bind, modify.
  destruct (forEach remove (map_to_list (_entries w)).*1 w) as [r w1].
  simpl in *. subst r. simpl. split_and!; try done.
  - apply map_eq. intros k. rewrite Hent, lookup_empty.
    case_decide as Hk; [done|].
    destruct (_entries w !! k) as [e|] eqn:He; [|done].
    exfalso. apply Hk. apply list_elem_of_fmap. exists (k, e).
    split; [done | by apply elem_of_map_to_list].
  - intros j. rewrite Htim. apply cancel_many_lookup.
  - rewrite Htim. apply cancel_many_length.
  - rewrite Hlog. by rewrite length_map_to_list.
Qed.

(** The loop of [pause]. *)
Lemma forEach_clear_ok (l : list (string * Entry)) : ∀ w,
  Forall (λ ke, is_Some (_timer ke.2)) l →
  forEach (λ '(_, entry),
             match _timer entry with
             | Some id => clear id
             | None => throw clearOfUndefined
             end) l w =
    (Ok (), setTimers (foldl (λ ts id, alter cancelled id ts) (timers w)
                         (omap (λ ke, _timer ke.2) l)) w).
Proof.
  induction l as [|[k0 e0] l IH]; intros w Hall.
  - simpl. unfold ret. by destruct w.
  - apply Forall_cons in Hall as [[id Hid] Hall]. simpl in Hid.
    cbn [forEach]. unfold bind. rewrite Hid, clear_eq.
    rewrite IH by done. cbn [omap list_omap]. simpl. by rewrite Hid.
Qed.

Lemma forEach_clear_throw (l : list (string * Entry)) : ∀ w,
  Exists (λ ke, _timer ke.2 = None) l →
  let r := forEach (λ '(_, entry),
                      match _timer entry with
                      | Some id => clear id
                      | None => throw clearOfUndefined
                      end) l w in
  r.1 = Throw clearOfUndefined ∧
  running r.2 = running w ∧ _entries r.2 = _entries w ∧
  length (timers r.2) = length (timers w).
Proof.
  induction l as [|[k0 e0] l IH]; intros w Hex.
  - by apply Exists_nil in Hex.
  - cbn [forEach]. unfold bind.
    destruct (_timer e0) as [id|] eqn:Hid.
    + apply Exists_cons in Hex as [Hex|Hex]; [simpl in Hex; congruence|].
      rewrite clear_eq.
      destruct (IH (setTimers (alter cancelled id (timers w)) w) Hex)
        as (Hr & Hrun & Hent & Hlen).
      cbv zeta in *. destruct (forEach _ l _) as [r w1]. simpl in *. subst r.
      split_and!; try done. by rewrite Hlen, length_alter.
    + unfold throw. simpl. done.
Qed.

End Cancelling.

Lemma elem_of_handles (es : gmap string Entry) (j : nat) :
  j ∈ handles es ↔ ∃ k entry, es !! k = Some entry ∧ _timer entry = Some j.
Proof.
  unfold handles. rewrite list_elem_of_omap. split.
  - intros ([k entry] & Hin & Ht). apply elem_of_map_to_list in Hin. eauto.
  - intros (k & entry & Hk & Ht). exists (k, entry).
    split; [by apply elem_of_map_to_list | done].
Qed.

(** X14. [remove] never raises. It forgets the name, cancels the timer
    the entry's handle names and no other, leaves the other entries, the
    running flag and the collection alone; under a name that is neither
    registered nor inherited it does nothing at all, so that, for such
    names, removing twice is removing once. *)
Theorem remove_cancels_and_forgets (nm : string) (w : World) :
  (remove nm w).1 = Ok () ∧
  _entries (remove nm w).2 = delete nm (_entries w) ∧
  (∀ j, timers (remove nm w).2 !! j =
        if decide (_entries w !! nm ≫= _timer = Some j)
        then cancelled <$> timers w !! j else timers w !! j) ∧
  running (remove nm w).2 = running w ∧
  _collection (remove nm w).2 = _collection w ∧
  (inherited nm = false →
   (_entries w !! nm = None → remove nm w = (Ok (), w)) ∧
   remove nm (remove nm w).2 = (Ok (), (remove nm w).2)).
Proof.
  destruct (_entries w !! nm) as [entry|] eqn:Hown.
  - rewrite (remove_own nm entry w Hown). cbn [fst snd]. split_and!; try done.
    + intros j. simpl. destruct (_timer entry) as [id|].
      * destruct (decide (j = id)) as [->|Hne].
        -- rewrite decide_True by done. apply list_lookup_alter_eq.
        -- rewrite decide_False by congruence. by apply list_lookup_alter_ne.
      * by rewrite decide_False.
    + intros Hinh. split; [done|].
      apply remove_missing; [|done]. simpl. apply lookup_delete_eq.
  - assert (Hframe : (remove nm w).1 = Ok () ∧ _entries (remove nm w).2 = _entries w ∧
                     timers (remove nm w).2 = timers w ∧
                     running (remove nm w).2 = running w ∧
                     _collection (remove nm w).2 = _collection w).
    { unfold remove, bind, get, log, modify. cbn [fst snd].
      unfold getEntry. rewrite Hown. by destruct (inherited nm). }
    destruct Hframe as (Hr & He & Ht & Hrun & Hc).
    split_and!; try done.
    + rewrite He. symmetry. by apply delete_id.
    + intros j. rewrite Ht. by rewrite decide_False.
    + intros Hinh. pose proof (remove_missing nm w Hown Hinh) as Hm.
      rewrite Hm. cbn [snd]. by rewrite Hm.
Qed.



(** X16. [stop()] never raises, also for entries without a timer handle.
    It empties the registry and clears the running flag, cancels exactly
    the timers the entries' handles name, logs one removal per entry and
    leaves the collection alone; a second [stop()] changes nothing. *)
Theorem stop_clears_registry (w : World) :
  (stop w).1 = Ok () ∧
  _entries (stop w).2 = ∅ ∧
  running (stop w).2 = false ∧
  (∀ j, timers (stop w).2 !! j =
        if decide (j ∈ handles (_entries w)) then cancelled <$> timers w !! j
        else timers w !! j) ∧
  _collection (stop w).2 = _collection w ∧
  length (logged (stop w).2) = (length (logged w) + size (_entries w))%nat ∧
  stop (stop w).2 = (Ok (), (stop w).2).
Proof.
  destruct (stop_spec w) as (Hret & Hent & Hrun & Htim & _ & Hcol & _ & Hlog).
  split_and!; try done.
  unfold stop at 1, bind at 1, get. cbn [fst snd]. rewrite Hent.
  rewrite map_to_list_empty. cbn [fmap list_fmap forEach].
  unfold bind, ret, modify.
  destruct (stop w).2 as [c tk o u s ix lg jc es rn ts]. simpl in Hrun. by subst rn.
Qed.

(** X17. [pause()] on a running scheduler whose entries all hold a
    handle returns, clears the running flag, keeps every entry with its
    handle, cancels exactly the timers those handles name, and after it
    the elapsing of any of them does nothing. *)
Theorem pause_cancels_every_handle (w : World) :
  running w = true →
  (∀ k entry, _entries w !! k = Some entry → is_Some (_timer entry)) →
  (pause w).1 = Ok () ∧
  running (pause w).2 = false ∧
  _entries (pause w).2 = _entries w ∧
  (∀ j, timers (pause w).2 !! j =
        if decide (j ∈ handles (_entries w)) then cancelled <$> timers w !! j
        else timers w !! j) ∧
  (∀ j, j ∈ handles (_entries w) →
        timeoutFires j (pause w).2 = (Ok (), (pause w).2)).
Proof.
  intros Hrun Hall.
  assert (Hp : pause w =
    (Ok (), setRunning false
              (setTimers (foldl (λ ts id, alter cancelled id ts) (timers w)
                            (handles (_entries w))) w))).
  { unfold pause, bind at 1, get. cbn [fst snd]. rewrite Hrun.
    unfold bind at 1, get. cbn [fst snd]. unfold bind.
    rewrite forEach_clear_ok; [done|].
    apply Forall_forall. intros [k entry] Hin. simpl.
    apply elem_of_map_to_list in Hin. by eapply Hall. }
  rewrite Hp. cbn [fst snd running _entries timers setRunning setTimers].
  split_and!; try done.
  - intros j. apply cancel_many_lookup.
  - intros j Hj. unfold timeoutFires, bind at 1, get.
    cbn [fst snd timers setRunning setTimers].
    rewrite cancel_many_lookup, decide_True by done.
    by destruct (timers w !! j).
Qed.

Lemma pause_cancels_every_handle_witness :
  let w := setRunning true
             (setTimers [{| fn := TestEntry; sched := everyMs 60000; done := false;
                            t := Some (19999, Fire 1020000) |}]
                (world0 {[ "Test Job" := withTimer 0 TestEntry ]})) in
  running w = true ∧
  running (pause w).2 = false ∧
  timers (pause w).2 !! 0%nat =
    Some {| fn := TestEntry; sched := everyMs 60000; done := true; t := None |}.
Proof.
  intros w.
  assert (Hall : ∀ k entry, _entries w !! k = Some entry → is_Some (_timer entry)).
  { intros k entry Hk. unfold w in Hk. cbn [_entries setRunning setTimers world0] in Hk.
    apply lookup_singleton_Some in Hk as [_ <-]. simpl. eauto. }
  destruct (pause_cancels_every_handle w eq_refl Hall) as (_ & Hr & _ & Ht & _).
  split; [reflexivity|]. split; [exact Hr|].
  rewrite Ht. reflexivity.
Defined.

(** X18. A late registration that fails poisons [pause()] but not
    [stop()]. When the scheduler is running and the scheduling step
    raises for the new entry (a single occurrence less than 1000 ms
    away), [add] raises the TypeError after the entry has been stored:
    the entry stays registered without a timer. From then on [pause()]
    raises on that entry and leaves the scheduler running, while [stop()]
    still returns. *)
Theorem failed_late_registration
    (r : RawEntry) (nm : string) (sch : Schedule) (jb : Z → string → JobResult)
    (w : World) (n0 : Z) :
  raw_name r = VStr nm → raw_schedule r = Some sch → raw_job r = Some jb →
  raw_persist r = VUndefined ∨ (∃ b, raw_persist r = VBool b) →
  raw_timer r = None →
  _entries w !! nm = None → inherited nm = false →
  running w = true →
  sch 2%nat (clock w (ticks w)) = [n0] → n0 - clock w (ticks w) < 1000 →
  (add r w).1 = Throw getTimeOfUndefined ∧
  _entries (add r w).2 = <[nm := registered r nm sch jb]> (_entries w) ∧
  timers (add r w).2 = timers w ∧
  running (add r w).2 = true ∧
  (pause (add r w).2).1 = Throw clearOfUndefined ∧
  running (pause (add r w).2).2 = true ∧
  (stop (add r w).2).1 = Ok ().
Proof.
  intros Hn Hs Hj Hp Ht Hnone Hinh Hrun Hnext Hd.
  assert (Hadd : add r w =
            (Throw getTimeOfUndefined,
             setTicks (S (ticks w))
               (setEntries (<[nm := registered r nm sch jb]> (_entries w)) w))).
  { rewrite (add_valid r nm sch jb w) by done.
    rewrite (getEntry_missing _ _ Hnone Hinh). cbv zeta. rewrite Hrun.
    unfold scheduleEntry, _laterSetInterval, _laterSetTimeout, liftRes, log,
      modify, get, Date_now, bind, ret. simpl.
    rewrite Hnext, scheduleTimeout_missing_second by done. reflexivity. }
  rewrite Hadd. cbn [fst snd _entries timers running setTicks setEntries].
  split_and!; try done.
  - set (w1 := setTicks _ _).
    destruct (forEach_clear_throw (map_to_list (_entries w1)) w1) as (Hr & _).
    { apply Exists_exists. exists (nm, registered r nm sch jb). split; [|by simpl].
      apply elem_of_map_to_list. unfold w1. simpl. apply lookup_insert_eq. }
    unfold pause, bind at 1, get. cbn [fst snd].
    assert (Hr1 : running w1 = true) by exact Hrun. rewrite Hr1.
    unfold bind at 1, get. cbn [fst snd]. unfold bind.
    cbv zeta in Hr. destruct (forEach _ _ w1) as [res w2]. simpl in Hr.
    by subst res.
  - set (w1 := setTicks _ _).
    destruct (forEach_clear_throw (map_to_list (_entries w1)) w1) as (Hr & Hrn & _).
    { apply Exists_exists. exists (nm, registered r nm sch jb). split; [|by simpl].
      apply elem_of_map_to_list. unfold w1. simpl. apply lookup_insert_eq. }
    unfold pause, bind at 1, get. cbn [fst snd].
    assert (Hr1 : running w1 = true) by exact Hrun. rewrite Hr1.
    unfold bind at 1, get. cbn [fst snd]. unfold bind.
    cbv zeta in Hr, Hrn. destruct (forEach _ _ w1) as [res w2]. simpl in Hr, Hrn.
    subst res. simpl. by rewrite Hrn.
  - apply stop_spec.
Qed.

Lemma failed_late_registration_witness :
  let r := {| raw_name := VStr "Once"; raw_schedule := Some (oneOff 1001000);
              raw_job := Some (λ _ _, Returns (VStr "ran"));
              raw_persist := VUndefined; raw_timer := None |} in
  let w := setRunning true (world0 ∅) in
  oneOff 1001000 2%nat (clock w (ticks w)) = [1001000] ∧
  (add r w).1 = Throw getTimeOfUndefined ∧
  (pause (add r w).2).1 = Throw clearOfUndefined.
Proof.
  intros r w.
  destruct (failed_late_registration r "Once" _ _ w 1001000
              eq_refl eq_refl eq_refl (or_introl eq_refl) eq_refl eq_refl eq_refl
              eq_refl eq_refl ltac:(simpl; lia)) as (Ha & _ & _ & _ & Hp & _).
  split; [reflexivity|]. split; [exact Ha | exact Hp].
Defined.

Lemma start_inv w w' :
  start w = (Ok (), w') →
  ∃ w1, forEach (λ '(k, entry), scheduleEntry k entry) (map_to_list (_entries w)) w
          = (Ok (), w1) ∧
        w' = setRunning true w1.
Proof.
  unfold start, bind at 1, get. unfold bind.
  destruct (forEach _ _ w) as [[[]|e] w1]; [|discriminate].
  unfold modify. intros [= <-]. eauto.
Qed.

(** X19. [stop()] reaches only the timers the entries still name. After
    two [start()]s in a row, [stop()] empties the registry but leaves
    every timer of the first [start()] as it was: live, with its timeout
    pending, one per entry. *)
Theorem orphaned_timers_survive_stop (w w1 w2 : World) :
  start w = (Ok (), w1) →
  start w1 = (Ok (), w2) →
  _entries (stop w2).2 = ∅ ∧
  length (timers w1) = (length (timers w) + size (_entries w))%nat ∧
  ∀ j, (length (timers w) ≤ j < length (timers w1))%nat →
       ∃ iv, timers w1 !! j = Some iv ∧ done iv = false ∧
             timers (stop w2).2 !! j = Some iv.
Proof.
  intros (wa & Ha & ->)%start_inv (wb & Hb & ->)%start_inv.
  apply forEach_scheduleEntry in Ha
    as ((news1 & Ht1 & Hlen1 & Hlive1) & _ & _ & _); [|apply NoDup_fst_map_to_list].
  cbn [_entries timers setRunning] in Hb.
  apply forEach_scheduleEntry in Hb
    as ((news2 & Ht2 & _ & _) & Hnew2 & Hold2 & _); [|apply NoDup_fst_map_to_list].
  rewrite length_map_to_list in Hlen1.
  destruct (stop_spec (setRunning true wb)) as (_ & Hent & _ & Htim & _).
  split; [exact Hent|]. cbn [timers setRunning] in *.
  split; [rewrite Ht1, length_app; lia|].
  intros j [Hge Hlt].
  destruct (lookup_lt_is_Some_2 (timers wa) j Hlt) as [iv Hiv].
  exists iv. split; [exact Hiv|]. split.
  - rewrite Ht1, lookup_app_r in Hiv by exact Hge.
    rewrite Forall_lookup in Hlive1. by eapply Hlive1.
  - rewrite Htim, decide_False.
    + rewrite Ht2. by apply lookup_app_l_Some.
    + intros (k & e' & Hk & Hh)%elem_of_handles.
      cbn [_entries setRunning] in Hk.
      destruct (_entries wa !! k) as [e|] eqn:Hka.
      * destruct (Hnew2 k e) as (id & Hid & Hrange);
          [by apply elem_of_map_to_list|].
        rewrite Hid in Hk. injection Hk as <-. simpl in Hh.
        injection Hh as <-. lia.
      * rewrite Hold2 in Hk; [simpl in Hk; congruence|].
        intros [[k' e0] [-> Hin]]%list_elem_of_fmap.
        apply elem_of_map_to_list in Hin. simpl in Hka. congruence.
Qed.

Lemma orphaned_timers_survive_stop_witness :
  let w := world0 {[ "Test Job" := TestEntry ]} in
  let w1 := (start w).2 in
  let w2 := (start w1).2 in
  start w = (Ok (), w1) ∧ start w1 = (Ok (), w2) ∧
  _entries (stop w2).2 = ∅.
Proof.
  intros w w1 w2.
  assert (H1 : start w = (Ok (), w1))
    by (apply returned_eta; vm_compute; reflexivity).
  assert (H2 : start w1 = (Ok (), w2))
    by (apply returned_eta; vm_compute; reflexivity).
  split; [exact H1|]. split; [exact H2|].
  exact (proj1 (orphaned_timers_survive_stop w w1 w2 H1 H2)).
Defined.

(** * Further properties: reset, next date, startup *)

(** X20. [_reset()] forgets the entries and the records but cancels no
    timer: the registry and the collection are empty and the running flag
    is cleared, yet a live interval whose timeout is pending still fires
    afterwards, and its job runs (the emptied collection holds no claim
    that could stop it). *)
Theorem reset_cancels_no_timer
    (w : World) (id : nat) (iv : Interval) (delay d : Z) :
  timers w !! id = Some iv →
  t iv = Some (delay, Fire d) →
  done iv = false →
  let w1 := (_reset w).2 in
  (_reset w).1 = Ok () ∧
  _entries w1 = ∅ ∧
  docs (_collection w1) = [] ∧
  running w1 = false ∧
  timers w1 = timers w ∧
  jobCalls (timeoutFires id w1).2 =
    jobCalls w ++ [(setMilliseconds0 d, name (fn iv))].
Proof.
  intros Hiv Ht Hdone w1. subst w1.
  unfold _reset, bind, modify. cbn [fst snd].
  set (w1 := setRunning false _).
  split_and!; try done.
  assert (Hiv1 : timers w1 !! id = Some iv) by exact Hiv.
  rewrite (timeoutFires_fire_eq id w1 iv delay d Hiv1 Ht Hdone).
  destruct (rearm_frame id (sched iv) (_entryWrapper (fn iv) d (fired id w1)).2)
    as (-> & _).
  destruct (persist (fn iv)) eqn:Hp.
  - rewrite wrapper_run_persist; [done | done |].
    apply taken_of_held. reflexivity.
  - by rewrite wrapper_run_volatile.
Qed.

Lemma reset_cancels_no_timer_witness :
  let iv := {| fn := TestEntry; sched := everyMs 60000; done := false;
               t := Some (19999, Fire 1020000) |} in
  let w := setRunning true
             (setTimers [iv] (world0 {[ "Test Job" := withTimer 0 TestEntry ]})) in
  timers w !! 0%nat = Some iv ∧
  timers (_reset w).2 = [iv] ∧
  jobCalls (timeoutFires 0 (_reset w).2).2 = [(1020000, "Test Job")].
Proof.
  intros iv w.
  destruct (reset_cancels_no_timer w 0 iv 19999 1020000 eq_refl eq_refl eq_refl)
    as (_ & _ & _ & _ & Ht & Hj).
  split; [reflexivity|]. split; [exact Ht | exact Hj].
Defined.

(** X21. [nextScheduledAtDate] asks the schedule afresh and knows nothing
    of the timer. For a registered job it returns the first occurrence
    after the current clock reading and only reads the clock; when that
    occurrence is less than 1000 ms away, the timer set at the same
    reading is for the second occurrence, so the date reported is one at
    which the job does not run. For a name that is neither registered nor
    inherited it returns undefined and changes nothing. *)
Theorem next_date_ignores_the_timer (nm : string) (w : World) :
  (_entries w !! nm = None → inherited nm = false →
   nextScheduledAtDate nm w = (Ok NoSuchJob, w)) ∧
  (∀ entry, _entries w !! nm = Some entry →
     let now := clock w (ticks w) in
     nextScheduledAtDate nm w =
       (Ok (match head (schedule entry 1%nat now) with
            | Some d => At d
            | None => Never
            end), setTicks (S (ticks w)) w) ∧
     ∀ n0 n1,
       schedule entry 1%nat now = [n0] →
       schedule entry 2%nat now = [n0; n1] →
       n0 - now < 1000 → n1 - now < maxDelay →
       (nextScheduledAtDate nm w).1 = Ok (At n0) ∧
       (_laterSetTimeout (schedule entry) w).1 = Ok (Some (n1 - now, Fire n1))).
Proof.
  split.
  - intros Hnone Hinh. unfold nextScheduledAtDate, bind, get. cbn [fst snd].
    by rewrite (getEntry_missing _ _ Hnone Hinh).
  - intros entry Hown now.
    assert (Hnext : nextScheduledAtDate nm w =
              (Ok (match head (schedule entry 1%nat now) with
                   | Some d => At d
                   | None => Never
                   end), setTicks (S (ticks w)) w)).
    { unfold nextScheduledAtDate, bind, get. cbn [fst snd].
      by rewrite (getEntry_own _ _ _ Hown). }
    split; [exact Hnext|].
    intros n0 n1 H1 H2 Hd0 Hd1. rewrite Hnext, H1. split; [done|].
    unfold _laterSetTimeout, bind, Date_now, liftRes. cbn [fst snd].
    fold now. rewrite H2.
    rewrite (scheduleTimeout_picked _ _ _ _ (pickOccurrence_second now n0 n1 [] Hd0)).
    by rewrite arm_fire.
Qed.

(** X23. Startup is contained and repeatable. The hook never raises
    (an index that cannot be created is logged); it touches no document,
    neither the [_id] supply nor the registry, the timers or the job
    calls; it sets Later's time mode from [options.utc]; and running it a
    second time leaves the collection, indexes included, as the first run
    left it. *)
Theorem startup_is_contained (w : World) :
  (startup w).1 = Ok () ∧
  docs (_collection (startup w).2) = docs (_collection w) ∧
  nextId (_collection (startup w).2) = nextId (_collection w) ∧
  _entries (startup w).2 = _entries w ∧
  timers (startup w).2 = timers w ∧
  running (startup w).2 = running w ∧
  jobCalls (startup w).2 = jobCalls w ∧
  laterUTC (startup w).2 = utc (options w) ∧
  _collection (startup (startup w).2).2 = _collection (startup w).2.
Proof.
  unfold startup, bind, try_catch, get, modify, createIndexM, log, ret,
    createIndexAsync.
  repeat (cbn; rewrite ?Z.eqb_refl;
          match goal with
          | |- context [if ?b then _ else _] => destruct b eqn:?
          | |- context [match ?o with Some _ => _ | None => _ end] => destruct o eqn:?
          end);
    cbn; split_and!; try done; try congruence;
    repeat match goal with
           | H : (_ =? _) = true |- _ => apply Z.eqb_eq in H; subst
           end;
    try congruence;
    destruct (_collection w); simpl in *; congruence.
Qed.



